(** * Natural cubic splines solved by successive over-relaxation

    A shallow embedding of [natural_cubic_splines_interpolation.py]:
    the solver [relajacion], the coefficient builder [trazador_cubico]
    and the loop of [plot_ncsi] that evaluates the segment polynomials.

    The program computes with numpy [float64].  Every definition is written
    over a type [R] with the operations the source uses, so that the
    structural theorems hold for any arithmetic.  Three instances make the
    definitions run:
    - [F64], IEEE binary64 on primitive floats, is the arithmetic of the
      program; what is said about the numbers the program computes is said
      there;
    - [Q_exact] and [Q_reduced] compute with fractions, without rounding.
      They are not the arithmetic of the program: nothing overflows, there
      is no [inf] and no [nan], and [x / 0] is [0].  They serve for runs in
      which only the control flow and the shape of the result matter, for
      comparisons of abscissas, and for the behaviour of the iteration in
      the absence of rounding. *)

From Stdlib Require Import QArith Qabs Lqa Lia String.
From stdpp Require Import base list.
From Stdlib Require Floats Uint63.

Local Open Scope nat_scope.

(** ** The arithmetic used by the program *)

Class Numeric (R : Type) := {
  (** a decimal literal of the source: [0], [1], [2], [6], [0.5], [1e-8] *)
  lit : Q -> R;
  add : R -> R -> R;
  sub : R -> R -> R;
  mul : R -> R -> R;
  div : R -> R -> R;
  (** [x ** n] *)
  pow : R -> nat -> R;
  (** [np.linalg.norm(v) > tol], the test of the [while] loop *)
  norm_gt : list R -> R -> bool
}.

Declare Scope num_scope.
Delimit Scope num_scope with num.
Infix "⊕" := add (at level 50, left associativity) : num_scope.
Infix "⊖" := sub (at level 50, left associativity) : num_scope.
Infix "⊗" := mul (at level 40, left associativity) : num_scope.
Infix "⊘" := div (at level 40, left associativity) : num_scope.
Local Open Scope num_scope.

(** ** Values of the Python program *)

(** A point is a pair [(x, y)]; the program reads [p[0]] and [p[1]]. *)
Definition point (R : Type) : Type := (R * R)%type.

(** The argument of [trazador_cubico] with its run-time type: the program
    tests [isinstance(points, (list, tuple))]. *)
Inductive py_value (R : Type) : Type :=
| VList (items : list (point R))
| VTuple (items : list (point R))
| VNdarray (items : list (point R))
| VOther (type_name : string).
Arguments VList {R} items.
Arguments VTuple {R} items.
Arguments VNdarray {R} items.
Arguments VOther {R} type_name.

Inductive exn : Type :=
| ValueError (msg : string).

(** What a call has done when the fuel of the [while] loop is spent:
    returned, raised, or still looping. *)
Inductive outcome (A : Type) : Type :=
| Returned (v : A)
| Raised (e : exn)
| Running.
Arguments Returned {A} v.
Arguments Raised {A} e.
Arguments Running {A}.

(** The numpy arrays that are written in place live in a store; an array is
    named by its address. *)
Abbreviation loc := nat (only parsing).
Abbreviation store R := (list (list R)) (only parsing).

Section Program.
Context {R : Type} `{Numeric R}.

Definition zero : R := lit 0%Q.
Definition one : R := lit 1%Q.
Definition two : R := lit 2%Q.
Definition six : R := lit 6%Q.
(** default arguments of [relajacion]: [omega=0.5], [tol=1e-8] *)
Definition omega_default : R := lit (1 # 2)%Q.
Definition tol_default : R := lit (1 # 100000000)%Q.

(** [v[i]] for an index in range (numpy raises otherwise; every theorem
    below reads inside the arrays). *)
Definition at_ (v : list R) (i : nat) : R := nth i v zero.
(** [A[i][j]] *)
Definition at2 (A : list (list R)) (i j : nat) : R := at_ (nth i A []) j.

(** *** Store operations *)

Definition read (st : store R) (l : loc) : list R := nth l st [].
(** a new array holding [v]: [x0.copy()].  The store holds the arrays the
    program names; the temporaries of [np.matmul(A, x) - b] are not stored. *)
Definition alloc (v : list R) (st : store R) : loc * store R :=
  (length st, st ++ [v]).
(** [x[i] = v] on the array at [l] *)
Definition write (st : store R) (l : loc) (i : nat) (v : R) : store R :=
  <[l := <[i := v]> (read st l)]> st.

(** *** Vectors and matrices *)

(** elementwise [u - v] *)
Definition vsub (u v : list R) : list R := zip_with sub u v.
(** one entry of [np.matmul(A, x)] *)
Definition dot (row x : list R) : R :=
  fold_left (fun acc j => acc ⊕ at_ row j ⊗ at_ x j) (seq 0 (length row)) zero.
Definition matmul (A : list (list R)) (x : list R) : list R :=
  map (fun row => dot row x) A.
(** [A.shape[1]] *)
Definition ncols (A : list (list R)) : nat := length (nth 0 A []).
(** [np.matmul(A, x) - b] *)
Definition residual_vec (A : list (list R)) (b x : list R) : list R :=
  vsub (matmul A x) b.

(** *** relajacion *)

(** the inner [for j] loop: [sigma] of row [i] from the current [x] *)
Definition row_sigma (A : list (list R)) (x : list R) (i : nat) : R :=
  fold_left (fun sigma j => if j =? i then sigma else sigma ⊕ at2 A i j ⊗ at_ x j)
            (seq 0 (ncols A)) zero.

(** the value assigned to [x[i]] *)
Definition relaxed (A : list (list R)) (b : list R) (omega : R)
           (x : list R) (i : nat) : R :=
  (one ⊖ omega) ⊗ at_ x i ⊕ (omega ⊘ at2 A i i) ⊗ (at_ b i ⊖ row_sigma A x i).

(** the body of the [for i] loop, on the array at [x] *)
Definition update_row (A : list (list R)) (b : list R) (omega : R)
           (x : loc) (st : store R) (i : nat) : store R :=
  write st x i (relaxed A b omega (read st x) i).

(** the [for i in range(A.shape[0])] loop *)
Definition sweep (A : list (list R)) (b : list R) (omega : R)
           (x : loc) (st : store R) : store R :=
  fold_left (update_row A b omega x) (seq 0 (length A)) st.

(** the [while residual > tol] loop; [fuel] bounds the number of tests *)
Fixpoint relajacion_loop (fuel : nat) (A : list (list R)) (b : list R)
         (omega tol : R) (x : loc) (st : store R) : option (store R) :=
  match fuel with
  | O => None
  | S fuel' =>
      if norm_gt (residual_vec A b (read st x)) tol
      then relajacion_loop fuel' A b omega tol x (sweep A b omega x st)
      else Some st
  end.

(** [relajacion(A, b, x0, omega, tol)]: the address of the returned array
    and the store after the call *)
Definition relajacion (fuel : nat) (A : list (list R)) (b : list R) (x0 : loc)
           (omega tol : R) (st : store R) : option (loc * store R) :=
  let '(x, st1) := alloc (read st x0) st in
  match relajacion_loop fuel A b omega tol x st1 with
  | Some st2 => Some (x, st2)
  | None => None
  end.

(** *** The same loops on the contents of [x] *)

Definition update_vec (A : list (list R)) (b : list R) (omega : R)
           (x : list R) (i : nat) : list R :=
  <[i := relaxed A b omega x i]> x.

Definition sweep_vec (A : list (list R)) (b : list R) (omega : R)
           (x : list R) : list R :=
  fold_left (update_vec A b omega) (seq 0 (length A)) x.

Fixpoint sor (fuel : nat) (A : list (list R)) (b : list R)
         (omega tol : R) (x : list R) : option (list R) :=
  match fuel with
  | O => None
  | S fuel' =>
      if norm_gt (residual_vec A b x) tol
      then sor fuel' A b omega tol (sweep_vec A b omega x)
      else Some x
  end.

(** *** trazador_cubico *)

Definition xs (points : list (point R)) : list R := map fst points.
Definition ys (points : list (point R)) : list R := map snd points.

(** [points[1:, 0] - points[:-1, 0]] *)
Definition knot_spacing (points : list (point R)) : list R :=
  vsub (tail (xs points)) (removelast (xs points)).
(** [points[1:, 1] - points[:-1, 1]] *)
Definition delta_y (points : list (point R)) : list R :=
  vsub (tail (ys points)) (removelast (ys points)).

(** the row appended to [A] at step [i] of [for i in range(1, k)] *)
Definition system_row (hk : list R) (k i : nat) : list R :=
  if i =? 1 then
    [two ⊗ (at_ hk (i - 1) ⊕ at_ hk i); at_ hk i] ++ replicate (k - 3) zero
  else if i =? k - 1 then
    replicate (k - 3) zero ++ [at_ hk (i - 1); two ⊗ (at_ hk (i - 1) ⊕ at_ hk i)]
  else
    replicate (i - 2) zero
      ++ [at_ hk (i - 1); two ⊗ (at_ hk (i - 1) ⊕ at_ hk i); at_ hk i]
      ++ replicate (k - 2 - i) zero.

(** the entry appended to [b] at step [i] *)
Definition system_rhs (hk dyk : list R) (i : nat) : R :=
  six ⊗ (at_ dyk i ⊘ at_ hk i ⊖ at_ dyk (i - 1) ⊘ at_ hk (i - 1)).

Definition system_matrix (hk : list R) : list (list R) :=
  map (system_row hk (length hk)) (seq 1 (length hk - 1)).
Definition system_vector (hk dyk : list R) : list R :=
  map (system_rhs hk dyk) (seq 1 (length hk - 1)).

(** [np.append(0, np.append(sigmas, 0))] *)
Definition assemble (sigmas : list R) : list R := [zero] ++ (sigmas ++ [zero]).

(** the four values appended at step [i] of [for i in range(k-1)] *)
Definition coef_a (hk sigmas : list R) (i : nat) : R :=
  (at_ sigmas (i + 1) ⊖ at_ sigmas i) ⊘ (six ⊗ at_ hk i).
Definition coef_b (sigmas : list R) (i : nat) : R :=
  at_ sigmas i ⊘ two.
Definition coef_c (hk yk sigmas : list R) (i : nat) : R :=
  (at_ yk (i + 1) ⊖ at_ yk i) ⊘ at_ hk i
    ⊖ (two ⊗ at_ hk i ⊗ at_ sigmas i ⊕ at_ hk i ⊗ at_ sigmas (i + 1)) ⊘ six.
Definition coef_d (yk : list R) (i : nat) : R := at_ yk i.

Definition coefficients : Type := (list R * list R * list R * list R)%type.

Definition build_coefficients (points : list (point R)) (sigmas : list R)
  : coefficients :=
  let hk := knot_spacing points in
  let k := length hk in
  let idx := seq 0 (k - 1) in
  (map (coef_a hk sigmas) idx,
   map (coef_b sigmas) idx,
   map (coef_c hk (ys points) sigmas) idx,
   map (coef_d (ys points)) idx).

(** the second derivatives [sigmas] after line 98, when the solver has
    returned within [fuel] tests *)
Definition solve_sigmas (fuel : nat) (points : list (point R)) : option (list R) :=
  let hk := knot_spacing points in
  let A := system_matrix hk in
  let b := system_vector hk (delta_y points) in
  let '(x0, st) := alloc (replicate (length b) zero) [] in
  match relajacion fuel A b x0 omega_default tol_default st with
  | Some (x, st') => Some (assemble (read st' x))
  | None => None
  end.

(** the body of [trazador_cubico] after the validation *)
Definition spline_of (fuel : nat) (points : list (point R)) : outcome coefficients :=
  match solve_sigmas fuel points with
  | Some sigmas => Returned (build_coefficients points sigmas)
  | None => Running
  end.

Definition trazador_cubico (fuel : nat) (points : py_value R) : outcome coefficients :=
  match points with
  | VList items | VTuple items =>
      if length items <? 4
      then Raised (ValueError "The length of 'points' must be greater than 1")
      else spline_of fuel items
  | _ => Raised (ValueError "'points' must be a list or tuple")
  end.

(** the value [plot_ncsi] computes for [xk] on segment [i] *)
Definition eval_segment (points : list (point R)) (a b c d : list R)
           (i : nat) (xk : R) : R :=
  let x_i := at_ (xs points) i in
  at_ a i ⊗ pow (xk ⊖ x_i) 3 ⊕ at_ b i ⊗ pow (xk ⊖ x_i) 2
    ⊕ at_ c i ⊗ (xk ⊖ x_i) ⊕ at_ d i.

End Program.

(** ** Two arithmetics over the rationals

    Exact fractions, not [float64]: see the head of the file. *)

(** [sum(v[i]**2)], the square of [np.linalg.norm(v)] *)
Definition sum_sq (v : list Q) : Q := fold_left (fun s r => (s + r * r)%Q) v 0%Q.

(** [norm(v) > tol] without the square root: the norm is not negative, so it
    exceeds [tol] when [tol] is negative or its square exceeds [tol]'s.
    A fraction is never [nan]; in [float64] the test is also false when the
    norm is [nan] (see [F64] and [Float64.relajacion_exit_test]). *)
Definition Q_norm_gt (v : list Q) (tol : Q) : bool :=
  negb (Qle_bool 0 tol) || negb (Qle_bool (sum_sq v) (tol * tol)).

(** exact arithmetic on fractions; [x / 0] is [0] *)
Definition Q_exact : Numeric Q :=
  {| lit := fun q => q;
     add := Qplus; sub := Qminus; mul := Qmult; div := Qdiv;
     pow := fun x n => Qpower x (Z.of_nat n);
     norm_gt := Q_norm_gt |}.

(** the same values, every result brought to lowest terms *)
Definition Q_reduced : Numeric Q :=
  {| lit := Qred;
     add := fun x y => Qred (x + y);
     sub := fun x y => Qred (x - y);
     mul := fun x y => Qred (x * y);
     div := fun x y => Qred (x / y);
     pow := fun x n => Qred (Qpower x (Z.of_nat n));
     norm_gt := Q_norm_gt |}.

(** ** The arithmetic of the program: [float64] *)

(** A number of the source as a [float64]: an integer below [2^63] is
    converted with rounding to nearest, a decimal literal [p/q] is the
    correctly rounded quotient of two integers that are themselves exact
    (all literals of the program and of the inputs below have numerator and
    denominator under [2^53]), which is the value Python reads. *)
Definition float_of_Z (z : Z) : PrimFloat.float :=
  match z with
  | Z0 => PrimFloat.zero
  | Zpos _ => PrimFloat.of_uint63 (Uint63.of_Z z)
  | Zneg p => PrimFloat.opp (PrimFloat.of_uint63 (Uint63.of_Z (Zpos p)))
  end.

Definition float_of_Q (q : Q) : PrimFloat.float :=
  PrimFloat.div (float_of_Z (Qnum q)) (float_of_Z (Zpos (Qden q))).

(** [np.linalg.norm(v)]: the square root of the sum of the squares, added
    from the left. *)
Definition float_norm (v : list PrimFloat.float) : PrimFloat.float :=
  PrimFloat.sqrt
    (fold_left (fun s r => PrimFloat.add s (PrimFloat.mul r r)) v PrimFloat.zero).

(** IEEE 754 binary64 with rounding to nearest even.  [x ** n] is a
    product of [n] factors; the theorems below use it at [x = 0] only.
    The comparison [norm > tol] is the one of the hardware: it is false
    when either side is [nan]. *)
Definition F64 : Numeric PrimFloat.float :=
  {| lit := float_of_Q;
     add := PrimFloat.add; sub := PrimFloat.sub;
     mul := PrimFloat.mul; div := PrimFloat.div;
     pow := fun x n => Nat.iter n (fun t => PrimFloat.mul t x) PrimFloat.one;
     norm_gt := fun v tol => PrimFloat.ltb tol (float_norm v) |}.

(** ** The store and the contents of [x] *)

Section StoreFacts.
Context {R : Type} `{Numeric R}.
Implicit Types (st : store R) (v : list R) (A : list (list R)) (l x : nat).

Lemma read_write_same st l i r : read (write st l i r) l = <[i := r]> (read st l).
Proof.
  unfold write, read. destruct (decide (l < length st)) as [Hl | Hl].
  - apply nth_lookup_Some, list_lookup_insert_eq. exact Hl.
  - rewrite (list_insert_ge st) by lia. rewrite (nth_overflow st) by lia. reflexivity.
Qed.

Lemma read_write_other st l (l' : nat) i r : l <> l' -> read (write st l i r) l' = read st l'.
Proof.
  intros Hne. unfold write, read.
  rewrite !nth_lookup, list_lookup_insert_ne by exact Hne. reflexivity.
Qed.

Lemma length_write st l i r : length (write st l i r) = length st.
Proof. unfold write. apply length_insert. Qed.

Lemma read_alloc_new st v : read (snd (alloc v st)) (fst (alloc v st)) = v.
Proof. unfold alloc, read; simpl. rewrite nth_middle. reflexivity. Qed.

Lemma read_alloc_old st v l : l < length st -> read (snd (alloc v st)) l = read st l.
Proof. intros Hl. unfold alloc, read; simpl. apply app_nth1. exact Hl. Qed.

(** Rows [first .. first+count-1] of a sweep, on the store and on the
    contents, do the same to the array at [x] and leave the rest alone. *)
Lemma rows_refine A b omega x rows : forall st,
  read (fold_left (update_row A b omega x) rows st) x
    = fold_left (update_vec A b omega) rows (read st x)
  /\ length (fold_left (update_row A b omega x) rows st) = length st
  /\ forall l, l <> x ->
       read (fold_left (update_row A b omega x) rows st) l = read st l.
Proof.
  induction rows as [| i rows IH]; intros st; simpl.
  - repeat split.
  - destruct (IH (update_row A b omega x st i)) as (Hx & Hlen & Hfr).
    unfold update_row in *. repeat split.
    + rewrite Hx, read_write_same. reflexivity.
    + rewrite Hlen. apply length_write.
    + intros l Hl. rewrite Hfr by exact Hl. apply read_write_other. congruence.
Qed.

Lemma sweep_refine A b omega x st :
  read (sweep A b omega x st) x = sweep_vec A b omega (read st x)
  /\ length (sweep A b omega x st) = length st
  /\ forall l, l <> x -> read (sweep A b omega x st) l = read st l.
Proof. apply rows_refine. Qed.

(** The [while] loop on the store is the loop [sor] on the contents of
    [x], and writes nowhere else. *)
Lemma relajacion_loop_refine A b omega tol x : forall fuel st,
  match relajacion_loop fuel A b omega tol x st with
  | Some st' =>
      sor fuel A b omega tol (read st x) = Some (read st' x)
      /\ length st' = length st
      /\ forall l, l <> x -> read st' l = read st l
  | None => sor fuel A b omega tol (read st x) = None
  end.
Proof.
  induction fuel as [| fuel IH]; intros st; simpl; [reflexivity |].
  destruct (norm_gt (residual_vec A b (read st x)) tol).
  - destruct (sweep_refine A b omega x st) as (Hx & Hlen & Hfr).
    specialize (IH (sweep A b omega x st)).
    destruct (relajacion_loop fuel A b omega tol x (sweep A b omega x st)) as [st' |].
    + destruct IH as (Hs & Hl & Hf). rewrite <- Hx. repeat split.
      * exact Hs.
      * congruence.
      * intros l Hne. rewrite Hf by exact Hne. apply Hfr. exact Hne.
    + rewrite <- Hx. exact IH.
  - repeat split.
Qed.

(** [relajacion] returns a new array, the result of [sor] on the contents
    of [x0], and every array of the caller is as it was. *)
Lemma relajacion_refine fuel A b (x0 : nat) omega tol st :
  match relajacion fuel A b x0 omega tol st with
  | Some (x, st') =>
      x = length st
      /\ sor fuel A b omega tol (read st x0) = Some (read st' x)
      /\ forall l, l < length st -> read st' l = read st l
  | None => sor fuel A b omega tol (read st x0) = None
  end.
Proof.
  unfold relajacion.
  pose proof (relajacion_loop_refine A b omega tol (length st) fuel
                (st ++ [read st x0])) as Hloop.
  change (alloc (read st x0) st) with (length st, st ++ [read st x0]).
  cbv beta iota.
  assert (Hnew : read (st ++ [read st x0]) (length st) = read st x0)
    by (unfold read; apply nth_middle).
  destruct (relajacion_loop fuel A b omega tol (length st) (st ++ [read st x0]))
    as [st' |].
  - destruct Hloop as (Hs & _ & Hf). rewrite Hnew in Hs. repeat split.
    + exact Hs.
    + intros l Hl. rewrite Hf by lia. unfold read. apply app_nth1. exact Hl.
  - rewrite Hnew in Hloop. exact Hloop.
Qed.

End StoreFacts.

(** ** One sweep, row by row *)

Section SweepFacts.
Context {R : Type} `{Numeric R}.
Implicit Types (x v b : list R) (A : list (list R)) (omega tol : R).

Lemma length_update_vec A b omega x i : length (update_vec A b omega x i) = length x.
Proof. unfold update_vec. apply length_insert. Qed.

Lemma length_rows A b omega rows : forall x,
  length (fold_left (update_vec A b omega) rows x) = length x.
Proof.
  induction rows as [| i rows IH]; intros x; simpl; [reflexivity |].
  rewrite IH. apply length_update_vec.
Qed.

Lemma length_sweep_vec A b omega x : length (sweep_vec A b omega x) = length x.
Proof. apply length_rows. Qed.

(** rows other than [j] leave [x[j]] alone *)
Lemma rows_untouched A b omega rows (j : nat) : forall x,
  ~ In j rows -> fold_left (update_vec A b omega) rows x !! j = x !! j.
Proof.
  induction rows as [| i rows IH]; intros x Hj; simpl; [reflexivity |].
  rewrite IH by (intros Hin; apply Hj; right; exact Hin).
  unfold update_vec. apply list_lookup_insert_ne.
  intros ->. apply Hj. left. reflexivity.
Qed.

(** the array after rows [0 .. p-1] of the sweep *)
Definition rows_upto A b omega (p : nat) x : list R :=
  fold_left (update_vec A b omega) (seq 0 p) x.

Lemma rows_upto_S A b omega p x :
  rows_upto A b omega (S p) x = update_vec A b omega (rows_upto A b omega p x) p.
Proof. unfold rows_upto. rewrite seq_S, fold_left_app. reflexivity. Qed.

Lemma rows_upto_later A b omega p q x (j : nat) :
  j < p -> p <= q ->
  rows_upto A b omega q x !! j = rows_upto A b omega p x !! j.
Proof.
  intros Hj Hpq. unfold rows_upto.
  replace q with (p + (q - p)) by lia.
  rewrite seq_app, fold_left_app. apply rows_untouched.
  rewrite in_seq. lia.
Qed.

Lemma rows_upto_earlier A b omega p x (j : nat) :
  p <= j -> rows_upto A b omega p x !! j = x !! j.
Proof. intros Hj. apply rows_untouched. rewrite in_seq. lia. Qed.

(** When row [p] is reached, the entries before [p] already hold their new
    values and the entries from [p] on still hold the old ones. *)
Lemma rows_upto_mixed A b omega p x :
  p <= length A ->
  rows_upto A b omega p x = take p (sweep_vec A b omega x) ++ drop p x.
Proof.
  intros Hp. apply list_eq. intros j.
  assert (Hlen : length (sweep_vec A b omega x) = length x)
    by apply length_sweep_vec.
  destruct (decide (j < p)) as [Hj | Hj].
  - rewrite <- (rows_upto_later A b omega p (length A)) by lia.
    change (rows_upto A b omega (length A) x) with (sweep_vec A b omega x).
    destruct (decide (j < length x)) as [Hjx | Hjx].
    + rewrite lookup_app_l by (rewrite length_take; lia).
      rewrite lookup_take_lt by lia. reflexivity.
    + rewrite lookup_ge_None_2 by lia. symmetry. apply lookup_ge_None_2.
      rewrite length_app, length_take, length_drop. lia.
  - rewrite rows_upto_earlier by lia.
    destruct (decide (j < length x)) as [Hjx | Hjx].
    + rewrite lookup_app_r by (rewrite length_take; lia).
      rewrite length_take, lookup_drop. f_equal. lia.
    + rewrite lookup_ge_None_2 by lia. symmetry. apply lookup_ge_None_2.
      rewrite length_app, length_take, length_drop. lia.
Qed.

Lemma at_lookup v (i : nat) r : v !! i = Some r -> at_ v i = r.
Proof. unfold at_. apply nth_lookup_Some. Qed.

Lemma at_same_lookup v w (i : nat) : v !! i = w !! i -> at_ v i = at_ w i.
Proof. unfold at_. rewrite !nth_lookup. intros ->. reflexivity. Qed.

(** The new [x[i]] is computed from the entries already updated in this
    sweep (before [i]) and the old ones (from [i] on). *)
Lemma sweep_vec_entry A b omega x (i : nat) :
  i < length A -> i < length x ->
  at_ (sweep_vec A b omega x) i
    = relaxed A b omega (take i (sweep_vec A b omega x) ++ drop i x) i.
Proof.
  intros HiA Hix.
  rewrite <- rows_upto_mixed by lia.
  apply at_lookup.
  change (sweep_vec A b omega x) with (rows_upto A b omega (length A) x).
  rewrite (rows_upto_later A b omega (S i) (length A)) by lia.
  rewrite rows_upto_S. unfold update_vec.
  apply list_lookup_insert_eq.
  unfold rows_upto. rewrite length_rows. exact Hix.
Qed.

Lemma at_mixed_old A b omega x (i : nat) :
  i < length x ->
  at_ (take i (sweep_vec A b omega x) ++ drop i x) i = at_ x i.
Proof.
  intros Hix. apply at_same_lookup.
  rewrite lookup_app_r by (rewrite length_take; lia).
  rewrite length_take, length_sweep_vec, lookup_drop. f_equal. lia.
Qed.

(** *** The loop as a sequence of sweeps *)

Definition sweeps A b omega (k : nat) x : list R :=
  Nat.iter k (sweep_vec A b omega) x.

Definition above A b tol x : bool := norm_gt (residual_vec A b x) tol.

Lemma sweeps_shift A b omega k x :
  sweeps A b omega k (sweep_vec A b omega x) = sweeps A b omega (S k) x.
Proof.
  unfold sweeps. induction k as [| k IH]; simpl; [reflexivity |].
  rewrite IH. reflexivity.
Qed.

Lemma length_sweeps A b omega k x : length (sweeps A b omega k x) = length x.
Proof.
  unfold sweeps. induction k as [| k IH]; simpl; [reflexivity |].
  rewrite length_sweep_vec. exact IH.
Qed.

(** [sor] returns the first iterate that passes the test, when the fuel
    reaches it. *)
Lemma sor_returns_iff A b omega tol : forall fuel x x',
  sor fuel A b omega tol x = Some x'
  <-> exists k, k < fuel /\ x' = sweeps A b omega k x
        /\ above A b tol x' = false
        /\ forall j, j < k -> above A b tol (sweeps A b omega j x) = true.
Proof.
  induction fuel as [| fuel IH]; intros x x'; simpl.
  - split; [discriminate | intros (k & Hk & _); lia].
  - fold (above A b tol x). destruct (above A b tol x) eqn:Hx.
    + rewrite IH. split.
      * intros (k & Hk & Heq & Hlast & Hbefore). exists (S k).
        rewrite <- sweeps_shift. repeat split; [lia | exact Heq | exact Hlast |].
        intros [| j] Hj; [exact Hx |].
        rewrite <- sweeps_shift. apply Hbefore. lia.
      * intros (k & Hk & Heq & Hlast & Hbefore). destruct k as [| k].
        { simpl in Heq. subst x'. congruence. }
        exists k. rewrite sweeps_shift. repeat split; [lia | exact Heq | exact Hlast |].
        intros j Hj. rewrite sweeps_shift. apply Hbefore. lia.
    + split.
      * intros [= <-]. exists 0. repeat split; [lia | exact Hx | intros j Hj; lia].
      * intros (k & Hk & Heq & Hlast & Hbefore). destruct k as [| k].
        { simpl in Heq. subst x'. reflexivity. }
        specialize (Hbefore 0 ltac:(lia)). simpl in Hbefore. congruence.
Qed.

Lemma sor_length A b omega tol fuel x x' :
  sor fuel A b omega tol x = Some x' -> length x' = length x.
Proof.
  rewrite sor_returns_iff. intros (k & _ & -> & _). apply length_sweeps.
Qed.

Lemma first_passing A b omega tol x (k : nat) :
  above A b tol (sweeps A b omega k x) = false ->
  exists k', (k' <= k)
    /\ above A b tol (sweeps A b omega k' x) = false
    /\ forall j, (j < k') -> above A b tol (sweeps A b omega j x) = true.
Proof.
  intros Hk.
  assert (Hscan : forall n,
            (forall j, (j < n) -> above A b tol (sweeps A b omega j x) = true)
            \/ exists k', (k' < n)
                 /\ above A b tol (sweeps A b omega k' x) = false
                 /\ forall j, (j < k') -> above A b tol (sweeps A b omega j x) = true).
  { induction n as [| n [Hall | (k' & Hlt & Hk' & Hbefore)]].
    - left. intros j Hj. lia.
    - destruct (above A b tol (sweeps A b omega n x)) eqn:Hn.
      + left. intros j Hj. destruct (decide (j = n)) as [-> | Hne]; [exact Hn |].
        apply Hall. lia.
      + right. exists n. repeat split; [lia | exact Hn | exact Hall].
    - right. exists k'. repeat split; [lia | exact Hk' | exact Hbefore]. }
  destruct (Hscan k) as [Hall | (k' & Hlt & Hk' & Hbefore)].
  - exists k. repeat split; [lia | exact Hk | exact Hall].
  - exists k'. repeat split; [lia | exact Hk' | exact Hbefore].
Qed.

(** When some iterate passes the test, the loop returns once the fuel
    reaches the first such iterate. *)
Lemma sor_enough_fuel A b omega tol x (k : nat) :
  above A b tol (sweeps A b omega k x) = false ->
  exists fuel x', forall fuel', (fuel <= fuel') ->
    sor fuel' A b omega tol x = Some x'.
Proof.
  intros Hk. destruct (first_passing A b omega tol x k Hk) as (k' & _ & Hk' & Hbefore).
  exists (S k'), (sweeps A b omega k' x). intros fuel' Hfuel.
  apply sor_returns_iff. exists k'. repeat split; [lia | exact Hk' | exact Hbefore].
Qed.

End SweepFacts.

(** ** The tridiagonal system and the coefficients *)

Section SplineFacts.
Context {R : Type} `{Numeric R}.
Implicit Types (points : list (point R)) (hk dyk u v : list R).

Lemma at_vsub u v (i : nat) :
  i < length u -> i < length v -> at_ (vsub u v) i = at_ u i ⊖ at_ v i.
Proof.
  intros Hu Hv. apply at_lookup. unfold vsub, at_.
  rewrite lookup_zip_with.
  destruct (nth_lookup_or_length u i zero) as [-> | ?]; [| lia].
  destruct (nth_lookup_or_length v i zero) as [-> | ?]; [| lia].
  reflexivity.
Qed.

Lemma length_tail_pred (l : list R) : length (tail l) = length l - 1.
Proof. destruct l; simpl; lia. Qed.

Lemma length_steps (l : list R) :
  length (vsub (tail l) (removelast l)) = length l - 1.
Proof.
  unfold vsub. rewrite length_zip_with, length_tail_pred, removelast_firstn_len.
  rewrite length_take. lia.
Qed.

Lemma at_steps (l : list R) (i : nat) :
  i + 1 < length l ->
  at_ (vsub (tail l) (removelast l)) i = at_ l (i + 1) ⊖ at_ l i.
Proof.
  intros Hi. rewrite at_vsub.
  - f_equal.
    + unfold at_. rewrite !nth_lookup, lookup_tail.
      replace (S i) with (i + 1) by lia. reflexivity.
    + apply at_same_lookup. rewrite removelast_firstn_len.
      apply lookup_take_lt. lia.
  - rewrite length_tail_pred. lia.
  - rewrite removelast_firstn_len, length_take. lia.
Qed.

Lemma length_xs points : length (xs points) = length points.
Proof. apply length_map. Qed.

Lemma length_ys points : length (ys points) = length points.
Proof. apply length_map. Qed.

Lemma length_knot_spacing points : length (knot_spacing points) = length points - 1.
Proof. unfold knot_spacing. rewrite length_steps, length_xs. reflexivity. Qed.

Lemma length_delta_y points : length (delta_y points) = length points - 1.
Proof. unfold delta_y. rewrite length_steps, length_ys. reflexivity. Qed.

(** [hk[i] = x[i+1] - x[i]] *)
Lemma knot_spacing_at points (i : nat) :
  i + 1 < length points ->
  at_ (knot_spacing points) i = at_ (xs points) (i + 1) ⊖ at_ (xs points) i.
Proof. intros Hi. apply at_steps. rewrite length_xs. exact Hi. Qed.

(** [delta_yk[i] = y[i+1] - y[i]] *)
Lemma delta_y_at points (i : nat) :
  i + 1 < length points ->
  at_ (delta_y points) i = at_ (ys points) (i + 1) ⊖ at_ (ys points) i.
Proof. intros Hi. apply at_steps. rewrite length_ys. exact Hi. Qed.

Lemma nth_map_seq {B : Type} (f : nat -> B) (first count i : nat) (d : B) :
  i < count -> nth i (map f (seq first count)) d = f (first + i).
Proof.
  intros Hi. rewrite (nth_indep _ d (f 0)) by (rewrite length_map, length_seq; exact Hi).
  rewrite map_nth, seq_nth by exact Hi. reflexivity.
Qed.

Lemma at_map_seq (f : nat -> R) (first count i : nat) :
  i < count -> at_ (map f (seq first count)) i = f (first + i).
Proof. apply nth_map_seq. Qed.

Lemma at_replicate_zero (n i : nat) : at_ (replicate n zero) i = zero.
Proof.
  unfold at_. revert i. induction n as [| n IH]; intros [| i]; simpl; auto.
Qed.

Lemma at_app_l u v (i : nat) : i < length u -> at_ (u ++ v) i = at_ u i.
Proof. intros Hi. unfold at_. apply app_nth1. exact Hi. Qed.

Lemma at_app_r u v (i : nat) : length u <= i -> at_ (u ++ v) i = at_ v (i - length u).
Proof. intros Hi. unfold at_. apply app_nth2. lia. Qed.

Lemma length_system_row hk (k i : nat) :
  3 <= k -> 1 <= i <= k - 1 -> length (system_row hk k i) = k - 1.
Proof.
  intros Hk Hi. unfold system_row.
  destruct (i =? 1) eqn:E1; [| destruct (i =? k - 1) eqn:E2 ].
  - simpl. rewrite length_replicate. lia.
  - rewrite length_app, length_replicate. simpl. lia.
  - apply Nat.eqb_neq in E1, E2.
    rewrite !length_app, !length_replicate. simpl. lia.
Qed.

(** Row of unknown [i], column of unknown [j]: the diagonal, the two
    neighbours, and zero elsewhere; the first row has no left neighbour
    and the last no right one, their columns being out of the matrix. *)
Lemma system_row_entry hk (k i j : nat) :
  3 <= k -> 1 <= i <= k - 1 -> 1 <= j <= k - 1 ->
  at_ (system_row hk k i) (j - 1)
    = if j =? i then two ⊗ (at_ hk (i - 1) ⊕ at_ hk i)
      else if j =? i - 1 then at_ hk (i - 1)
      else if j =? i + 1 then at_ hk i
      else zero.
Proof.
  intros Hk Hi Hj. unfold system_row.
  destruct (i =? 1) eqn:E1; [| destruct (i =? k - 1) eqn:E2 ].
  - apply Nat.eqb_eq in E1. subst i.
    destruct (decide (j = 1)) as [-> | J1]; [reflexivity |].
    destruct (decide (j = 2)) as [-> | J2]; [reflexivity |].
    replace (j =? 1) with false by (symmetry; apply Nat.eqb_neq; lia).
    replace (j =? 1 - 1) with false by (symmetry; apply Nat.eqb_neq; lia).
    replace (j =? 1 + 1) with false by (symmetry; apply Nat.eqb_neq; lia).
    rewrite at_app_r by (simpl; lia). apply at_replicate_zero.
  - apply Nat.eqb_eq in E2. apply Nat.eqb_neq in E1.
    destruct (decide (j = i)) as [-> | Ji].
    + rewrite Nat.eqb_refl, at_app_r by (rewrite length_replicate; lia).
      rewrite length_replicate. replace (i - 1 - (k - 3)) with 1 by lia. reflexivity.
    + replace (j =? i) with false by (symmetry; apply Nat.eqb_neq; lia).
      replace (j =? i + 1) with false by (symmetry; apply Nat.eqb_neq; lia).
      destruct (decide (j = i - 1)) as [-> | Ji'].
      * rewrite Nat.eqb_refl, at_app_r by (rewrite length_replicate; lia).
        rewrite length_replicate. replace (i - 1 - 1 - (k - 3)) with 0 by lia.
        reflexivity.
      * replace (j =? i - 1) with false by (symmetry; apply Nat.eqb_neq; lia).
        rewrite at_app_l by (rewrite length_replicate; lia).
        apply at_replicate_zero.
  - apply Nat.eqb_neq in E1, E2.
    destruct (decide (j < i - 1)) as [Jlt | Jge].
    + replace (j =? i) with false by (symmetry; apply Nat.eqb_neq; lia).
      replace (j =? i - 1) with false by (symmetry; apply Nat.eqb_neq; lia).
      replace (j =? i + 1) with false by (symmetry; apply Nat.eqb_neq; lia).
      rewrite at_app_l by (rewrite length_replicate; lia).
      apply at_replicate_zero.
    + rewrite at_app_r by (rewrite length_replicate; lia).
      rewrite length_replicate.
      destruct (decide (j = i - 1)) as [-> | J1].
      { replace (i - 1 =? i) with false by (symmetry; apply Nat.eqb_neq; lia).
        rewrite Nat.eqb_refl.
        replace (i - 1 - 1 - (i - 2)) with 0 by lia. reflexivity. }
      destruct (decide (j = i)) as [-> | J2].
      { rewrite Nat.eqb_refl.
        replace (i - 1 - (i - 2)) with 1 by lia. reflexivity. }
      destruct (decide (j = i + 1)) as [-> | J3].
      { replace (i + 1 =? i) with false by (symmetry; apply Nat.eqb_neq; lia).
        replace (i + 1 =? i - 1) with false by (symmetry; apply Nat.eqb_neq; lia).
        rewrite Nat.eqb_refl.
        replace (i + 1 - 1 - (i - 2)) with 2 by lia. reflexivity. }
      replace (j =? i) with false by (symmetry; apply Nat.eqb_neq; lia).
      replace (j =? i - 1) with false by (symmetry; apply Nat.eqb_neq; lia).
      replace (j =? i + 1) with false by (symmetry; apply Nat.eqb_neq; lia).
      rewrite at_app_r by (simpl; lia). apply at_replicate_zero.
Qed.

Lemma length_system_matrix hk : length (system_matrix hk) = length hk - 1.
Proof. unfold system_matrix. rewrite length_map, length_seq. reflexivity. Qed.

Lemma length_system_vector hk dyk : length (system_vector hk dyk) = length hk - 1.
Proof. unfold system_vector. rewrite length_map, length_seq. reflexivity. Qed.

Lemma system_matrix_row hk (i : nat) :
  1 <= i <= length hk - 1 ->
  nth (i - 1) (system_matrix hk) [] = system_row hk (length hk) i.
Proof.
  intros Hi. unfold system_matrix. rewrite nth_map_seq by lia. f_equal. lia.
Qed.

Lemma system_vector_at hk dyk (i : nat) :
  1 <= i <= length hk - 1 ->
  at_ (system_vector hk dyk) (i - 1) = system_rhs hk dyk i.
Proof.
  intros Hi. unfold system_vector, at_. rewrite nth_map_seq by lia. f_equal. lia.
Qed.

End SplineFacts.

(** ** Sample inputs *)

(** the four points of the end-to-end scenario: [[0,0],[1,1],[2,0],[3,-1]] *)
Definition zigzag4 : list (point Q) := [(0, 0); (1, 1); (2, 0); (3, -1)]%Q.
(** four points on a line: the right-hand side of the system is zero *)
Definition line4 : list (point Q) := [(0, 0); (1, 1); (2, 2); (3, 3)]%Q.
(** a 1x1 system whose initial residual is already within [tol=1e-8] *)
Definition tiny_A : list (list Q) := [[1%Q]].
Definition tiny_b : list Q := [(1 # 1000000000)%Q].

(** the system of [zigzag4] *)
Definition zigzag_A : list (list Q) := [[4; 1]; [1; 4]]%Q.
Definition zigzag_b : list Q := [-12; 0]%Q.

(** ** The solver *)

Section SolverClaims.
Context {R : Type} `{Numeric R}.
Implicit Types (A : list (list R)) (b v : list R) (omega tol : R) (st : list (list R)).

Lemma lengths_returned (points : list (point R)) sigmas :
  let '(a, b, c, d) := build_coefficients points sigmas in
  length a = length points - 2 /\ length b = length points - 2
  /\ length c = length points - 2 /\ length d = length points - 2.
Proof.
  unfold build_coefficients.
  rewrite !length_map, !length_seq, length_knot_spacing.
  repeat split; lia.
Qed.

(** C4 (as amended): [relajacion] works on a copy of [x0]; it tests the
    residual of the copy before any sweep and after every full sweep, and
    returns the first iterate for which [residual > tol] is false, so the
    initial guess itself when it already passes.  Each sweep updates the
    rows in increasing order, in place: the new [x[i]] is
    [(1-omega)*x[i] + (omega/A[i][i])*(b[i] - sigma)] with [sigma] summed
    over [j != i] from the entries already updated in this sweep and the
    old ones after them.  With enough fuel the first passing iterate is
    returned. *)
Theorem relajacion_tests_then_sweeps fuel A b (x0 : nat) omega tol st :
  (forall x st', relajacion fuel A b x0 omega tol st = Some (x, st') ->
     exists k, k < fuel
       /\ read st' x = sweeps A b omega k (read st x0)
       /\ above A b tol (read st' x) = false
       /\ forall j, j < k -> above A b tol (sweeps A b omega j (read st x0)) = true)
  /\ (forall k, k < fuel ->
        above A b tol (sweeps A b omega k (read st x0)) = false ->
        (forall j, j < k -> above A b tol (sweeps A b omega j (read st x0)) = true) ->
        exists x st', relajacion fuel A b x0 omega tol st = Some (x, st')
          /\ read st' x = sweeps A b omega k (read st x0))
  /\ (forall v (i : nat), i < length A -> i < length v ->
        let v' := sweep_vec A b omega v in
        at_ v' i
          = (one ⊖ omega) ⊗ at_ v i
              ⊕ (omega ⊘ at2 A i i) ⊗ (at_ b i ⊖ row_sigma A (take i v' ++ drop i v) i)).
Proof.
  pose proof (relajacion_refine fuel A b x0 omega tol st) as Href.
  split; [| split].
  - intros x st' Hret. rewrite Hret in Href. destruct Href as (_ & Hsor & _).
    apply sor_returns_iff in Hsor. destruct Hsor as (k & Hk & Heq & Hlast & Hbefore).
    exists k. rewrite <- Heq. auto.
  - intros k Hk Hlast Hbefore.
    assert (Hsor : sor fuel A b omega tol (read st x0)
                   = Some (sweeps A b omega k (read st x0))).
    { apply sor_returns_iff. exists k. auto. }
    destruct (relajacion fuel A b x0 omega tol st) as [[x st'] |].
    + destruct Href as (_ & Hs & _). exists x, st'. split; [reflexivity |].
      congruence.
    + congruence.
  - intros v i HiA Hiv v'. subst v'.
    rewrite sweep_vec_entry by assumption. unfold relaxed.
    rewrite at_mixed_old by assumption. reflexivity.
Qed.

(** C9: [relajacion] never writes to the caller's [x0]: the array it
    returns is a new one, and [x0], like every array of the caller, holds
    its values after the call and after every sweep of the loop. *)
Theorem relajacion_keeps_x0 fuel A b (x0 : nat) omega tol st :
  x0 < length st ->
  (forall x st', relajacion fuel A b x0 omega tol st = Some (x, st') ->
     x <> x0 /\ read st' x0 = read st x0
     /\ forall l, l < length st -> read st' l = read st l)
  /\ (forall k,
        let '(x, st1) := alloc (read st x0) st in
        read (Nat.iter k (sweep A b omega x) st1) x0 = read st x0).
Proof.
  intros Hx0. split.
  - intros x st' Hret.
    pose proof (relajacion_refine fuel A b x0 omega tol st) as Href.
    rewrite Hret in Href. destruct Href as (Hx & _ & Hfr).
    repeat split; [lia | apply Hfr; exact Hx0 | exact Hfr].
  - intros k. change (alloc (read st x0) st) with (length st, st ++ [read st x0]).
    cbv beta iota. induction k as [| k IH]; simpl.
    + unfold read. apply app_nth1. exact Hx0.
    + destruct (sweep_refine A b omega (length st)
                  (Nat.iter k (sweep A b omega (length st)) (st ++ [read st x0])))
        as (_ & _ & Hfr).
      rewrite Hfr by lia. exact IH.
Qed.

End SolverClaims.

(** ** The coefficient builder *)

Section BuilderClaims.
Context {R : Type} `{Numeric R}.
Implicit Types (points : list (point R)) (sigmas : list R).

(** the system is solved by [sor] from the zero vector *)
Lemma solve_sigmas_sor fuel points :
  solve_sigmas fuel points
    = option_map assemble
        (sor fuel (system_matrix (knot_spacing points))
             (system_vector (knot_spacing points) (delta_y points))
             omega_default tol_default
             (replicate (length (system_vector (knot_spacing points) (delta_y points)))
                        zero)).
Proof.
  unfold solve_sigmas.
  set (A := system_matrix _). set (b := system_vector _ _).
  change (alloc (replicate (length b) zero) [])
    with (0, [replicate (length b) zero]).
  cbv beta iota.
  pose proof (relajacion_refine fuel A b 0 omega_default tol_default
                [replicate (length b) zero]) as Href.
  destruct (relajacion fuel A b 0 omega_default tol_default
              [replicate (length b) zero]) as [[x st'] |].
  - destruct Href as (_ & Hsor & _). change (read _ 0) with (replicate (length b) zero) in Hsor.
    rewrite Hsor. reflexivity.
  - change (read _ 0) with (replicate (length b) zero) in Href.
    rewrite Href. reflexivity.
Qed.

Lemma solve_sigmas_shape fuel points sigmas :
  solve_sigmas fuel points = Some sigmas ->
  exists x, sigmas = assemble x /\ length x = length points - 2.
Proof.
  rewrite solve_sigmas_sor.
  destruct (sor _ _ _ _ _ _) as [x |] eqn:Hsor; [| discriminate].
  intros [= <-]. exists x. split; [reflexivity |].
  apply sor_length in Hsor. rewrite Hsor, length_replicate.
  rewrite length_system_vector, length_knot_spacing. lia.
Qed.

Lemma trazador_cubico_returned fuel (v : py_value R) cf :
  trazador_cubico fuel v = Returned cf ->
  exists points sigmas,
    (v = VList points \/ v = VTuple points)
    /\ 4 <= length points
    /\ solve_sigmas fuel points = Some sigmas
    /\ cf = build_coefficients points sigmas.
Proof.
  unfold trazador_cubico, spline_of.
  destruct v as [points | points | points | name]; try discriminate;
    (destruct (length points <? 4) eqn:Hlen; [discriminate |]);
    apply Nat.ltb_ge in Hlen;
    (destruct (solve_sigmas fuel points) as [sigmas |] eqn:Hs; [| discriminate]);
    intros [= <-]; exists points, sigmas; repeat split; auto.
Qed.

(** The four arrays returned for [n] points have length [n-2] each: the
    loop [for i in range(k-1)] runs over [k-1 = n-2] of the [k = n-1]
    segments. *)
Lemma trazador_cubico_lengths fuel (v : py_value R) a b c d :
  trazador_cubico fuel v = Returned (a, b, c, d) ->
  exists points,
    (v = VList points \/ v = VTuple points)
    /\ length a = length points - 2 /\ length b = length points - 2
    /\ length c = length points - 2 /\ length d = length points - 2.
Proof.
  intros Hret. apply trazador_cubico_returned in Hret.
  destruct Hret as (points & sigmas & Hv & _ & _ & Hcf).
  exists points. split; [exact Hv |].
  pose proof (lengths_returned points sigmas) as Hlen.
  rewrite <- Hcf in Hlen. exact Hlen.
Qed.

Lemma returned_coefficients fuel (v : py_value R) a b c d :
  trazador_cubico fuel v = Returned (a, b, c, d) ->
  exists points sigma,
    (v = VList points \/ v = VTuple points)
    /\ solve_sigmas fuel points = Some sigma
    /\ forall i, i < length a ->
         let h := knot_spacing points in
         let dy := delta_y points in
         at_ a i = (at_ sigma (i + 1) ⊖ at_ sigma i) ⊘ (six ⊗ at_ h i)
         /\ at_ b i = at_ sigma i ⊘ two
         /\ at_ c i = at_ dy i ⊘ at_ h i
                        ⊖ (two ⊗ at_ h i ⊗ at_ sigma i ⊕ at_ h i ⊗ at_ sigma (i + 1)) ⊘ six
         /\ at_ d i = at_ (ys points) i.
Proof.
  intros Hret. apply trazador_cubico_returned in Hret.
  destruct Hret as (points & sigma & Hv & Hn & Hs & Hcf).
  exists points, sigma. split; [exact Hv |]. split; [exact Hs |].
  unfold build_coefficients in Hcf. injection Hcf as -> -> -> ->.
  rewrite length_map, length_seq, length_knot_spacing.
  intros i Hi h dy. subst h dy.
  rewrite !at_map_seq by lia.
  simpl. unfold coef_a, coef_b, coef_c, coef_d.
  rewrite (delta_y_at points i) by lia. repeat split.
Qed.

(** C2: every coefficient returned is computed from the assembled second
    derivatives [sigma], the knot spacing [h] and the steps [dy] by
    [a[i] = (sigma[i+1] - sigma[i]) / (6*h[i])], [b[i] = sigma[i] / 2],
    [c[i] = dy[i]/h[i] - (2*h[i]*sigma[i] + h[i]*sigma[i+1]) / 6] and
    [d[i] = y[i]]. *)
Theorem trazador_cubico_coefficients fuel (v : py_value R) a b c d :
  trazador_cubico fuel v = Returned (a, b, c, d) ->
  exists points sigma,
    (v = VList points \/ v = VTuple points)
    /\ solve_sigmas fuel points = Some sigma
    /\ forall i, i < length a ->
         let h := knot_spacing points in
         let dy := delta_y points in
         at_ a i = (at_ sigma (i + 1) ⊖ at_ sigma i) ⊘ (six ⊗ at_ h i)
         /\ at_ b i = at_ sigma i ⊘ two
         /\ at_ c i = at_ dy i ⊘ at_ h i
                        ⊖ (two ⊗ at_ h i ⊗ at_ sigma i ⊕ at_ h i ⊗ at_ sigma (i + 1)) ⊘ six
         /\ at_ d i = at_ (ys points) i.
Proof. apply returned_coefficients. Qed.

(** C3: for [n >= 4] points the system has [n-2] equations in the unknowns
    [sigma[1..n-2]]; in the row of unknown [i] the diagonal is
    [2*(h[i-1] + h[i])], the left and right neighbours are [h[i-1]] and
    [h[i]], every other entry is zero (the first and the last row have
    only the neighbour that exists), the right-hand side is
    [6*(dy[i]/h[i] - dy[i-1]/h[i-1])]; and [trazador_cubico] hands this
    system to [relajacion] with a zero vector as initial guess and the
    default [omega] and [tol]. *)
Theorem trazador_cubico_system fuel points :
  4 <= length points ->
  let n := length points in
  let h := knot_spacing points in
  let dy := delta_y points in
  let A := system_matrix h in
  let rhs := system_vector h dy in
  length A = n - 2 /\ length rhs = n - 2
  /\ (forall i, 1 <= i <= n - 2 -> length (nth (i - 1) A []) = n - 2)
  /\ (forall i j, 1 <= i <= n - 2 -> 1 <= j <= n - 2 ->
        at2 A (i - 1) (j - 1)
          = if j =? i then two ⊗ (at_ h (i - 1) ⊕ at_ h i)
            else if j =? i - 1 then at_ h (i - 1)
            else if j =? i + 1 then at_ h i
            else zero)
  /\ (forall i, 1 <= i <= n - 2 ->
        at_ rhs (i - 1) = six ⊗ (at_ dy i ⊘ at_ h i ⊖ at_ dy (i - 1) ⊘ at_ h (i - 1)))
  /\ (forall container, container = VList \/ container = VTuple ->
        trazador_cubico fuel (container points)
          = match relajacion fuel A rhs 0 omega_default tol_default
                             [replicate (n - 2) zero] with
            | Some (x, st) => Returned (build_coefficients points (assemble (read st x)))
            | None => Running
            end).
Proof.
  intros Hn n h dy A rhs.
  assert (Hh : length h = n - 1) by apply length_knot_spacing.
  assert (HA : length A = n - 2)
    by (subst A; rewrite length_system_matrix; lia).
  assert (Hb : length rhs = n - 2)
    by (subst rhs; rewrite length_system_vector; lia).
  split; [exact HA |]. split; [exact Hb |]. split; [| split; [| split]].
  - intros i Hi. subst A. rewrite system_matrix_row by lia.
    rewrite length_system_row by lia. lia.
  - intros i j Hi Hj. unfold at2. subst A. rewrite system_matrix_row by lia.
    apply system_row_entry; lia.
  - intros i Hi. subst rhs. rewrite system_vector_at by lia. reflexivity.
  - intros container Hc.
    assert (Hbody : spline_of fuel points
              = match relajacion fuel A rhs 0 omega_default tol_default
                                 [replicate (n - 2) zero] with
                | Some (x, st) => Returned (build_coefficients points (assemble (read st x)))
                | None => Running
                end).
    { unfold spline_of, solve_sigmas. fold h dy A rhs. rewrite Hb.
      change (alloc (replicate (n - 2) zero) []) with (0, [replicate (n - 2) zero]).
      cbv beta iota.
      destruct (relajacion fuel A rhs 0 omega_default tol_default
                  [replicate (n - 2) zero]) as [[x st] |]; reflexivity. }
    assert (Hlen : (length points <? 4) = false) by (apply Nat.ltb_ge; exact Hn).
    destruct Hc as [-> | ->]; unfold trazador_cubico; rewrite Hlen; exact Hbody.
Qed.

(** C5: when the solver has returned, the assembled vector of second
    derivatives of [n >= 4] points has length [n], and its first and last
    entries are the [0] put there by [np.append]. *)
Theorem sigmas_boundary fuel points sigma :
  4 <= length points ->
  solve_sigmas fuel points = Some sigma ->
  length sigma = length points
  /\ at_ sigma 0 = zero
  /\ at_ sigma (length points - 1) = zero.
Proof.
  intros Hn Hs. apply solve_sigmas_shape in Hs. destruct Hs as (x & -> & Hx).
  unfold assemble. repeat split.
  - simpl. rewrite length_app. simpl. lia.
  - replace (length points - 1) with (S (length x)) by lia.
    unfold at_. simpl. apply nth_middle.
Qed.

(** C8 (what the code does): a list of two points is rejected with a
    message that asks for more than one point, although the test is
    [len(points) < 4]. *)
Theorem short_input_message fuel (p q : point R) :
  1 < length [p; q]
  /\ trazador_cubico fuel (VList [p; q])
     = Raised (ValueError "The length of 'points' must be greater than 1").
Proof. split; [simpl; lia | reflexivity]. Qed.

(** C10: a value that is neither a [list] nor a [tuple] is rejected with
    the [ValueError] of the [isinstance] test, whatever it holds: a numpy
    array of points is rejected like any other value. *)
Theorem trazador_cubico_rejects_other_types fuel points name :
  trazador_cubico fuel (VNdarray points)
    = Raised (ValueError "'points' must be a list or tuple")
  /\ trazador_cubico (R := R) fuel (VOther name)
    = Raised (ValueError "'points' must be a list or tuple").
Proof. split; reflexivity. Qed.

End BuilderClaims.

(** ** The program over the rationals, without rounding *)

Module Exact.
#[local] Existing Instance Q_exact.
Local Open Scope Q_scope.

Ltac to_Q :=
  unfold zero, one, two, six, omega_default, tol_default in *;
  cbn [add sub mul div pow lit Q_exact] in *.


(** *** Sums along a row *)

(** [s + sum(f(j) for j in js if j != i)] *)
Definition skip_sum (f : nat -> Q) (i : nat) (js : list nat) (s : Q) : Q :=
  fold_left (fun s j => if (j =? i)%nat then s else s + f j) js s.

(** [s + sum(f(j) for j in js)] *)
Definition full_sum (f : nat -> Q) (js : list nat) (s : Q) : Q :=
  fold_left (fun s j => s + f j) js s.

Lemma row_sigma_skip_sum (A : list (list Q)) (x : list Q) (i : nat) :
  row_sigma A x i = skip_sum (fun j => at2 A i j * at_ x j) i (seq 0 (ncols A)) 0.
Proof. reflexivity. Qed.

Lemma dot_full_sum (row x : list Q) :
  dot row x = full_sum (fun j => at_ row j * at_ x j) (seq 0 (length row)) 0.
Proof. reflexivity. Qed.

(** the sum of the absolute values off the diagonal of row [i] *)
Definition off_sum (A : list (list Q)) (i : nat) : Q :=
  skip_sum (fun j => Qabs (at2 A i j)) i (seq 0 (ncols A)) 0.

Lemma skip_sum_lipschitz (f g w : nat -> Q) (i : nat) (D : Q) (js : list nat) :
  (forall j, In j js -> j <> i -> Qabs (f j - g j) <= w j * D) ->
  forall s t u, Qabs (s - t) <= u * D ->
  Qabs (skip_sum f i js s - skip_sum g i js t) <= skip_sum w i js u * D.
Proof.
  unfold skip_sum. induction js as [| j js IH]; intros Hfg s t u Hstu; simpl.
  - exact Hstu.
  - assert (Hrest : forall j', In j' js -> j' <> i -> Qabs (f j' - g j') <= w j' * D)
      by (intros j' Hin; apply Hfg; right; exact Hin).
    destruct (Nat.eqb_spec j i) as [-> | Hne].
    + apply IH; assumption.
    + apply IH; [exact Hrest |].
      assert (Hj : Qabs (f j - g j) <= w j * D) by (apply Hfg; [left; reflexivity | exact Hne]).
      assert (E : s + f j - (t + g j) == (s - t) + (f j - g j)) by ring.
      rewrite E. eapply Qle_trans; [apply Qabs_triangle |]. lra.
Qed.

Lemma full_skip (f : nat -> Q) (i : nat) (js : list nat) :
  ~ In i js ->
  forall s t c, s == t + c -> full_sum f js s == skip_sum f i js t + c.
Proof.
  unfold full_sum, skip_sum. induction js as [| j js IH]; intros Hi s t c Hst; simpl.
  - exact Hst.
  - destruct (Nat.eqb_spec j i) as [-> | Hne].
    + exfalso. apply Hi. left. reflexivity.
    + apply IH; [intros Hin; apply Hi; right; exact Hin |]. lra.
Qed.

Lemma full_skip_split (f : nat -> Q) (i m : nat) :
  (i < m)%nat ->
  full_sum f (seq 0 m) 0 == skip_sum f i (seq 0 m) 0 + f i.
Proof.
  intros Hi. replace m with (i + S (m - S i))%nat by lia.
  rewrite seq_app. unfold full_sum, skip_sum. rewrite !fold_left_app. simpl.
  rewrite Nat.eqb_refl.
  apply (full_skip f i); [rewrite in_seq; lia |].
  assert (H0 : full_sum f (seq 0 i) 0 == skip_sum f i (seq 0 i) 0 + 0)
    by (apply full_skip; [rewrite in_seq; lia | lra]).
  unfold full_sum, skip_sum in H0. lra.
Qed.

Lemma full_sum_ge (f : nat -> Q) (js : list nat) :
  (forall j, In j js -> 0 <= f j) ->
  forall s, s <= full_sum f js s
            /\ forall j, In j js -> s + f j <= full_sum f js s.
Proof.
  unfold full_sum. induction js as [| j js IH]; intros Hf s; simpl.
  - split; [lra | intros j []].
  - assert (Hj : 0 <= f j) by (apply Hf; left; reflexivity).
    destruct (IH (fun j' Hin => Hf j' (or_intror Hin)) (s + f j)) as (Hle & Hin).
    split; [lra |]. intros j' [<- | Hj']; [exact Hle |].
    specialize (Hin j' Hj'). lra.
Qed.

(** a bound for finitely many values *)
Lemma bound_exists (f : nat -> Q) (m : nat) :
  exists D, 0 <= D /\ forall j, (j < m)%nat -> Qabs (f j) <= D.
Proof.
  exists (full_sum (fun j => Qabs (f j)) (seq 0 m) 0).
  destruct (full_sum_ge (fun j => Qabs (f j)) (seq 0 m)
              (fun j _ => Qabs_nonneg (f j)) 0) as (H0 & Hin).
  split; [exact H0 |]. intros j Hj.
  specialize (Hin j). rewrite in_seq in Hin. specialize (Hin ltac:(lia)). lra.
Qed.


(** *** Entries of the array during a sweep *)

Lemma eq_Qeq (x y : Q) : x = y -> x == y.
Proof. intros ->. reflexivity. Qed.

Lemma at_mixed (u w : list Q) (i j : nat) :
  length u = length w ->
  at_ (take i u ++ drop i w) j = if (j <? i)%nat then at_ u j else at_ w j.
Proof.
  intros Hlen. unfold at_. rewrite !nth_lookup, lookup_app, lookup_take, lookup_drop.
  destruct (Nat.ltb_spec j i) as [Hji | Hji].
  - rewrite decide_True by exact Hji.
    destruct (u !! j) eqn:Hu; [reflexivity |].
    apply lookup_ge_None_1 in Hu. rewrite length_take.
    rewrite lookup_ge_None_2 by lia. reflexivity.
  - rewrite decide_False by lia. rewrite length_take.
    destruct (decide (i <= length u)%nat) as [Hi | Hi].
    + replace (i + (j - i `min` length u))%nat with j by lia. reflexivity.
    + rewrite lookup_ge_None_2 by lia. rewrite lookup_ge_None_2 by lia. reflexivity.
Qed.

Lemma at_matmul (A : list (list Q)) (x : list Q) (i : nat) :
  (i < length A)%nat -> at_ (matmul A x) i = dot (nth i A []) x.
Proof.
  intros Hi. unfold at_, matmul.
  rewrite (nth_indep _ zero (dot [] x)) by (rewrite length_map; exact Hi).
  apply (map_nth (fun row => dot row x)).
Qed.

Lemma at_residual (A : list (list Q)) (b x : list Q) (i : nat) :
  (i < length A)%nat -> (i < length b)%nat ->
  at_ (residual_vec A b x) i = dot (nth i A []) x - at_ b i.
Proof.
  intros HA Hb. unfold residual_vec.
  rewrite at_vsub by (unfold matmul; rewrite ?length_map; assumption).
  rewrite at_matmul by exact HA. reflexivity.
Qed.

(** *** Squares and powers *)

Lemma sum_sq_bound (E : Q) (v : list Q) :
  (forall i, (i < length v)%nat -> Qabs (at_ v i) <= E) ->
  sum_sq v <= inject_Z (Z.of_nat (length v)) * (E * E).
Proof.
  intros Hv.
  assert (Hall : Forall (fun r => Qabs r <= E) v).
  { apply (Forall_nth _ zero). exact Hv. }
  clear Hv. unfold sum_sq.
  assert (Hgen : forall s, fold_left (fun s r => s + r * r) v s
                           <= s + inject_Z (Z.of_nat (length v)) * (E * E)).
  { induction Hall as [| r v Hr _ IH]; intros s; simpl fold_left.
    - change (inject_Z (Z.of_nat (length (@nil Q)))) with 0. lra.
    - eapply Qle_trans; [apply IH |].
      change (length (r :: v)) with (S (length v)).
      rewrite Nat2Z.inj_succ, <- Z.add_1_r, inject_Z_plus.
      apply Qabs_Qle_condition in Hr. change (inject_Z 1) with 1.
      set (n := inject_Z (Z.of_nat (length v))). nra. }
  eapply Qle_trans; [apply Hgen |]. lra.
Qed.

Lemma Qmult_le_left (x y z : Q) : 0 <= z -> x <= y -> z * x <= z * y.
Proof.
  intros Hz Hxy. rewrite (Qmult_comm z x), (Qmult_comm z y).
  apply Qmult_le_compat_r; assumption.
Qed.

(** [q^k] *)
Definition decay (q : Q) (k : nat) : Q := Nat.iter k (Qmult q) 1.

Lemma decay_bernoulli (q e : Q) (k : nat) :
  q == 1 - e -> 0 < e <= 1 ->
  0 <= decay q k /\ (1 + inject_Z (Z.of_nat k) * e) * decay q k <= 1.
Proof.
  intros Hq He. induction k as [| k (Hpos & IH)].
  - change (decay q 0) with 1. change (inject_Z (Z.of_nat 0)) with 0. split; lra.
  - change (decay q (S k)) with (q * decay q k).
    rewrite Nat2Z.inj_succ, <- Z.add_1_r, inject_Z_plus.
    change (inject_Z 1) with 1.
    assert (Hk : 0 <= inject_Z (Z.of_nat k)).
    { change 0 with (inject_Z 0). rewrite <- Zle_Qle. lia. }
    set (n := inject_Z (Z.of_nat k)) in *. set (t := decay q k) in *.
    rewrite Hq. split; [nra |].
    assert (H1 : (1 + (n + 1) * e) * ((1 - e) * t)
                 == (1 + n * e) * t - (n + 1) * (e * e) * t) by ring.
    rewrite H1.
    assert (H2 : 0 <= (n + 1) * (e * e) * t).
    { apply Qmult_le_0_compat; [apply Qmult_le_0_compat |]; [lra | | exact Hpos].
      apply Qmult_le_0_compat; lra. }
    lra.
Qed.

Lemma decay_small (q M eps : Q) :
  0 <= q < 1 -> 0 <= M -> 0 < eps ->
  exists k, 0 <= decay q k /\ decay q k * M <= eps.
Proof.
  intros Hq HM Heps.
  set (e := 1 - q).
  assert (He : 0 < e <= 1) by (unfold e; lra).
  assert (Hee : 0 < e * eps) by nra.
  destruct (Qarchimedean (M / (e * eps))) as [p Hp].
  exists (Pos.to_nat p).
  destruct (decay_bernoulli q e (Pos.to_nat p)) as (Hpos & Hb);
    [unfold e; ring | exact He |].
  split; [exact Hpos |].
  rewrite positive_nat_Z in Hb. change (inject_Z (Z.pos p)) with (Z.pos p # 1) in Hb.
  assert (HM' : M < (Z.pos p # 1) * (e * eps)).
  { assert (E1 : M == M / (e * eps) * (e * eps)) by (field; lra).
    rewrite E1 at 1. apply Qmult_lt_compat_r; assumption. }
  set (n := Z.pos p # 1) in *. set (t := decay q (Pos.to_nat p)) in *.
  assert (Hn : 0 < 1 + n * e) by (assert (0 < n) by (unfold n; reflexivity); nra).
  apply (Qmult_le_r _ _ (1 + n * e)); [exact Hn |].
  assert (H2 : t * M * (1 + n * e) == ((1 + n * e) * t) * M) by ring.
  rewrite H2.
  assert (H3 : (1 + n * e) * t * M <= 1 * M)
    by (apply Qmult_le_compat_r; assumption).
  nra.
Qed.

(** *** One sweep contracts the step between two iterates *)

Section Convergence.
Variables (A : list (list Q)) (b : list Q) (omega rho : Q).
Hypothesis Hcols : ncols A = length A.
Hypothesis Hrows : forall i, (i < length A)%nat -> length (nth i A []) = length A.
Hypothesis Hb : length b = length A.
Hypothesis Homega : 0 < omega <= 1.
Hypothesis Hrho : 0 <= rho < 1.
Hypothesis Hdiag : forall i, (i < length A)%nat -> ~ at2 A i i == 0.
Hypothesis Hdom :
  forall i, (i < length A)%nat -> off_sum A i <= rho * Qabs (at2 A i i).

(** every entry of [u] is within [D] of the entry of [w] *)
Definition close (u w : list Q) (D : Q) : Prop :=
  forall j, (j < length A)%nat -> Qabs (at_ u j - at_ w j) <= D.

(** the contraction factor [1 - omega + omega*rho] *)
Definition factor : Q := 1 - omega + omega * rho.

Lemma factor_range : 0 <= factor < 1.
Proof. unfold factor. nra. Qed.

Lemma sweep_entry_Q (x : list Q) (i : nat) :
  (i < length A)%nat -> length x = length A ->
  at_ (sweep_vec A b omega x) i
  = (1 - omega) * at_ x i
    + (omega / at2 A i i)
      * (at_ b i - row_sigma A (take i (sweep_vec A b omega x) ++ drop i x) i).
Proof.
  intros Hi Hx. rewrite sweep_vec_entry by lia. unfold relaxed.
  rewrite at_mixed_old by lia. reflexivity.
Qed.

Lemma row_sigma_close (u w : list Q) (i : nat) (D : Q) :
  (forall j, (j < length A)%nat -> j <> i -> Qabs (at_ u j - at_ w j) <= D) ->
  Qabs (row_sigma A u i - row_sigma A w i) <= off_sum A i * D.
Proof.
  intros Huw. rewrite !row_sigma_skip_sum. unfold off_sum.
  apply skip_sum_lipschitz.
  - intros j Hj Hne. rewrite in_seq, Hcols in Hj.
    assert (E : at2 A i j * at_ u j - at2 A i j * at_ w j
                == at2 A i j * (at_ u j - at_ w j)) by ring.
    rewrite E, Qabs_Qmult.
    rewrite (Qmult_comm _ (Qabs (at_ u j - at_ w j))), (Qmult_comm _ D).
    apply Qmult_le_compat_r; [apply Huw; [lia | exact Hne] | apply Qabs_nonneg].
  - assert (E : 0 - 0 == 0) by ring. rewrite E, Qabs_pos by lra. lra.
Qed.

Lemma omega_over_diag (i : nat) :
  (i < length A)%nat -> Qabs (omega / at2 A i i) * Qabs (at2 A i i) == omega.
Proof.
  intros Hi. rewrite <- Qabs_Qmult.
  assert (E : omega / at2 A i i * at2 A i i == omega)
    by (field; apply Hdiag; exact Hi).
  rewrite E. apply Qabs_pos. lra.
Qed.

Lemma contraction (x : list Q) (D : Q) :
  length x = length A -> 0 <= D ->
  close (sweep_vec A b omega x) x D ->
  close (sweep_vec A b omega (sweep_vec A b omega x)) (sweep_vec A b omega x)
        (factor * D).
Proof.
  intros Hx HD Hclose.
  set (x' := sweep_vec A b omega x) in *.
  set (x'' := sweep_vec A b omega x').
  assert (Hx' : length x' = length A) by (subst x'; rewrite length_sweep_vec; exact Hx).
  assert (Hx'' : length x'' = length A) by (subst x''; rewrite length_sweep_vec; exact Hx').
  pose proof factor_range as Hf.
  intros i. induction i as [i IH] using lt_wf_ind. intros Hi.
  pose proof (eq_Qeq _ _ (sweep_entry_Q x' i Hi Hx')) as E2. fold x'' in E2.
  pose proof (eq_Qeq _ _ (sweep_entry_Q x i Hi Hx)) as E1. fold x' in E1.
  set (S2 := row_sigma A (take i x'' ++ drop i x') i) in *.
  set (S1 := row_sigma A (take i x' ++ drop i x) i) in *.
  assert (E : at_ x'' i - at_ x' i
              == (1 - omega) * (at_ x' i - at_ x i)
                 + omega / at2 A i i * (S1 - S2)).
  { set (c := omega / at2 A i i) in *. lra. }
  rewrite E. clear E E1 E2.
  eapply Qle_trans; [apply Qabs_triangle |]. rewrite !Qabs_Qmult.
  assert (HS : Qabs (S1 - S2) <= off_sum A i * D).
  { rewrite Qabs_Qminus. apply row_sigma_close. intros j Hj Hne.
    rewrite !at_mixed by congruence.
    destruct (Nat.ltb_spec j i) as [Hji | Hji].
    - specialize (IH j Hji Hj). nra.
    - apply Hclose. exact Hj. }
  assert (H1 : Qabs (1 - omega) == 1 - omega) by (apply Qabs_pos; lra).
  rewrite H1.
  pose proof (Hclose i Hi) as Hd.
  pose proof (omega_over_diag i Hi) as Hc.
  pose proof (Hdom i Hi) as Ho.
  pose proof (Qabs_nonneg (omega / at2 A i i)) as Hc0.
  pose proof (Qabs_nonneg (S1 - S2)) as Hs0.
  set (c := Qabs (omega / at2 A i i)) in *.
  set (a := Qabs (at2 A i i)) in *.
  set (o := off_sum A i) in *.
  set (d := Qabs (at_ x' i - at_ x i)) in *.
  set (s := Qabs (S1 - S2)) in *.
  unfold factor.
  assert (Ht1 : (1 - omega) * d <= (1 - omega) * D) by nra.
  assert (Ht2 : c * s <= c * (o * D)) by nra.
  assert (Ht3 : c * o <= c * (rho * a)) by nra.
  assert (Ht4 : c * (o * D) <= omega * rho * D).
  { assert (Hx1 : c * (o * D) == (c * o) * D) by ring.
    assert (Hx2 : omega * rho * D == (c * (rho * a)) * D).
    { assert (Hx3 : c * (rho * a) == rho * (c * a)) by ring.
      rewrite Hx3, Hc. ring. }
    rewrite Hx1, Hx2. apply Qmult_le_compat_r; assumption. }
  lra.
Qed.

Lemma close_weaken (u w : list Q) (D D' : Q) :
  D <= D' -> close u w D -> close u w D'.
Proof. intros HD Hc j Hj. eapply Qle_trans; [apply Hc; exact Hj | exact HD]. Qed.

(** After a sweep, the residual of row [i] is bounded by the step. *)
Lemma residual_entry_bound (x : list Q) (D : Q) (i : nat) :
  length x = length A -> 0 <= D ->
  close (sweep_vec A b omega x) x D ->
  (i < length A)%nat ->
  Qabs (at_ (residual_vec A b (sweep_vec A b omega x)) i)
    <= Qabs (at2 A i i / omega) * D.
Proof.
  intros Hx HD Hclose Hi.
  set (x' := sweep_vec A b omega x) in *.
  assert (Hx' : length x' = length A) by (subst x'; rewrite length_sweep_vec; exact Hx).
  rewrite at_residual by lia.
  pose proof (full_skip_split (fun j => at_ (nth i A []) j * at_ x' j) i
                (length (nth i A []))) as Hdot.
  rewrite (Hrows i Hi) in Hdot. specialize (Hdot Hi).
  rewrite dot_full_sum, (Hrows i Hi), Hdot.
  change (skip_sum (fun j => at_ (nth i A []) j * at_ x' j) i (seq 0 (length A)) 0)
    with (skip_sum (fun j => at2 A i j * at_ x' j) i (seq 0 (length A)) 0).
  rewrite <- Hcols at 1. rewrite <- row_sigma_skip_sum.
  change (at_ (nth i A []) i) with (at2 A i i).
  pose proof (eq_Qeq _ _ (sweep_entry_Q x i Hi Hx)) as E1. fold x' in E1.
  set (S1 := row_sigma A (take i x' ++ drop i x) i) in *.
  set (S' := row_sigma A x' i).
  assert (HS : Qabs (S' - S1) <= off_sum A i * D).
  { apply row_sigma_close. intros j Hj Hne.
    rewrite at_mixed by congruence.
    destruct (Nat.ltb_spec j i) as [Hji | Hji].
    - assert (E0 : at_ x' j - at_ x' j == 0) by ring.
      rewrite E0, Qabs_pos by lra. exact HD.
    - apply Hclose. exact Hj. }
  pose proof (Hdiag i Hi) as Ha.
  assert (Eb : at_ b i - S1 == at2 A i i / omega * (at_ x' i - (1 - omega) * at_ x i)).
  { assert (Ex : at_ x' i - (1 - omega) * at_ x i == omega / at2 A i i * (at_ b i - S1)).
    { set (c := omega / at2 A i i) in *. lra. }
    rewrite Ex. field. split; [exact Ha | lra]. }
  assert (Et : at2 A i i / omega * omega == at2 A i i) by (field; lra).
  assert (E : S' + at2 A i i * at_ x' i - at_ b i
              == (S' - S1) + - (at2 A i i / omega * ((1 - omega) * (at_ x' i - at_ x i)))).
  { set (t := at2 A i i / omega) in *. rewrite <- Et at 1. lra. }
  rewrite E. clear E.
  eapply Qle_trans; [apply Qabs_triangle |].
  rewrite Qabs_opp, !Qabs_Qmult.
  assert (H1 : Qabs (1 - omega) == 1 - omega) by (apply Qabs_pos; lra).
  rewrite H1.
  assert (HT : Qabs (at2 A i i / omega) * omega == Qabs (at2 A i i)).
  { rewrite <- (Qabs_pos omega) at 2 by lra. rewrite <- Qabs_Qmult, Et. reflexivity. }
  pose proof (Hclose i Hi) as Hd.
  pose proof (Hdom i Hi) as Ho.
  pose proof (Qabs_nonneg (at2 A i i / omega)) as HT0.
  pose proof (Qabs_nonneg (at_ x' i - at_ x i)) as Hd0.
  set (T := Qabs (at2 A i i / omega)) in *.
  set (a := Qabs (at2 A i i)) in *.
  set (o := off_sum A i) in *.
  set (d := Qabs (at_ x' i - at_ x i)) in *.
  set (s := Qabs (S' - S1)) in *.
  assert (Ht1 : T * ((1 - omega) * d) <= T * ((1 - omega) * D)).
  { apply Qmult_le_left; [exact HT0 |]. apply Qmult_le_left; lra. }
  assert (Ht2 : o * D <= (T * omega) * D).
  { apply Qmult_le_compat_r; [| exact HD]. rewrite HT.
    assert (Hra : rho * a <= 1 * a)
      by (apply Qmult_le_compat_r; [lra | apply Qabs_nonneg]).
    lra. }
  lra.
Qed.

Lemma steps_close (x : list Q) (D : Q) :
  length x = length A -> 0 <= D ->
  close (sweep_vec A b omega x) x D ->
  forall k, close (sweeps A b omega (S k) x) (sweeps A b omega k x)
                  (decay factor k * D).
Proof.
  intros Hx HD Hclose. pose proof factor_range as Hf.
  assert (Hdecay : forall k, 0 <= decay factor k).
  { induction k as [| k IH]; [unfold decay; simpl; lra |].
    change (decay factor (S k)) with (factor * decay factor k). nra. }
  induction k as [| k IH].
  - apply (close_weaken _ _ D); [unfold decay; simpl; lra | exact Hclose].
  - change (sweeps A b omega (S (S k)) x)
      with (sweep_vec A b omega (sweep_vec A b omega (sweeps A b omega k x))).
    change (sweeps A b omega (S k) x)
      with (sweep_vec A b omega (sweeps A b omega k x)) in *.
    apply (close_weaken _ _ (factor * (decay factor k * D))).
    + change (decay factor (S k)) with (factor * decay factor k). lra.
    + apply contraction; [rewrite length_sweeps; exact Hx | | exact IH].
      specialize (Hdecay k). nra.
Qed.

Lemma above_false_intro (tol : Q) (v : list Q) :
  0 <= tol -> sum_sq (residual_vec A b v) <= tol * tol ->
  above A b tol v = false.
Proof.
  intros Htol Hsq. unfold above. change (norm_gt ?r ?t) with (Q_norm_gt r t).
  unfold Q_norm_gt.
  apply Qle_bool_iff in Htol, Hsq. rewrite Htol, Hsq. reflexivity.
Qed.

(** Some iterate passes the test of the loop. *)
Lemma sweeps_reach_tolerance (x : list Q) (tol : Q) :
  length x = length A -> 0 < tol ->
  exists k, above A b tol (sweeps A b omega k x) = false.
Proof.
  intros Hx Htol.
  destruct (bound_exists (fun j => at_ (sweep_vec A b omega x) j - at_ x j) (length A))
    as (D & HD & HDb).
  destruct (bound_exists (fun i => at2 A i i / omega) (length A)) as (K & HK & HKb).
  set (n := inject_Z (Z.of_nat (length A))).
  assert (Hn : 0 <= n).
  { unfold n. change 0 with (inject_Z 0). rewrite <- Zle_Qle. lia. }
  destruct (decay_small factor (K * D * (n + 1)) tol factor_range) as (k & Hk0 & Hk);
    [repeat apply Qmult_le_0_compat; lra | exact Htol |].
  exists (S k).
  pose proof (steps_close x D Hx HD HDb k) as Hstep.
  change (sweeps A b omega (S k) x)
    with (sweep_vec A b omega (sweeps A b omega k x)) in *.
  set (xk := sweeps A b omega k x) in *.
  assert (Hxk : length xk = length A) by (unfold xk; rewrite length_sweeps; exact Hx).
  set (Dk := decay factor k * D) in *.
  assert (HDk : 0 <= Dk) by (unfold Dk; apply Qmult_le_0_compat; assumption).
  apply above_false_intro; [lra |].
  assert (Hlen : length (residual_vec A b (sweep_vec A b omega xk)) = length A).
  { unfold residual_vec, vsub, matmul. rewrite length_zip_with, length_map, Hb. lia. }
  eapply Qle_trans.
  - apply (sum_sq_bound (K * Dk)). intros i Hi. rewrite Hlen in Hi.
    eapply Qle_trans; [apply (residual_entry_bound xk Dk i); assumption |].
    apply Qmult_le_compat_r; [apply HKb; exact Hi | exact HDk].
  - rewrite Hlen. fold n.
    assert (HE : K * Dk * (n + 1) <= tol).
    { unfold Dk. assert (E : K * (decay factor k * D) * (n + 1)
                              == decay factor k * (K * D * (n + 1))) by ring.
      rewrite E. exact Hk. }
    assert (HE0 : 0 <= K * Dk) by (apply Qmult_le_0_compat; assumption).
    set (E := K * Dk) in *.
    assert (HP0 : 0 <= E * (n + 1)) by (apply Qmult_le_0_compat; lra).
    assert (H1 : n * (E * E) <= (E * (n + 1)) * (E * (n + 1))).
    { assert (Hsq : n <= (n + 1) * (n + 1)) by nra.
      assert (H3 : n * (E * E) <= (n + 1) * (n + 1) * (E * E))
        by (apply Qmult_le_compat_r; [exact Hsq | apply Qmult_le_0_compat; assumption]).
      lra. }
    assert (H2 : (E * (n + 1)) * (E * (n + 1)) <= tol * tol).
    { eapply Qle_trans; [apply Qmult_le_left; [exact HP0 | exact HE] |].
      apply Qmult_le_compat_r; [exact HE | lra]. }
    lra.
Qed.

End Convergence.

(** *** The system of the spline is diagonally dominant *)

(** [x_0 < x_1 < ...] *)
Fixpoint strictly_increasing (l : list Q) : bool :=
  match l with
  | x :: (y :: _) as rest => negb (Qle_bool y x) && strictly_increasing rest
  | _ => true
  end.

Lemma strictly_increasing_at (l : list Q) :
  strictly_increasing l = true ->
  forall i, (i + 1 < length l)%nat -> at_ l i < at_ l (i + 1).
Proof.
  induction l as [| x [| y rest] IH]; intros Hinc i Hi; simpl in Hi; try lia.
  simpl in Hinc. apply andb_prop in Hinc. destruct Hinc as (Hxy & Hrest).
  destruct i as [| i].
  - unfold at_. simpl. apply Qnot_le_lt. intros Hle.
    apply Qle_bool_iff in Hle. rewrite Hle in Hxy. discriminate.
  - apply (IH Hrest i). simpl. lia.
Qed.

Lemma full_sum_add (u w : nat -> Q) (js : list nat) :
  forall s t r, r == s + t ->
    full_sum (fun j => u j + w j) js r == full_sum u js s + full_sum w js t.
Proof.
  unfold full_sum. induction js as [| j js IH]; intros s t r Hr; simpl; [exact Hr |].
  apply IH. lra.
Qed.

Lemma full_sum_zero (g : nat -> Q) (js : list nat) :
  (forall j, In j js -> g j == 0) ->
  forall t r, r == t -> full_sum g js r == t.
Proof.
  unfold full_sum. induction js as [| j js IH]; intros Hg t r Hr; simpl; [exact Hr |].
  apply IH; [intros j' Hj'; apply Hg; right; exact Hj' |].
  rewrite (Hg j) by (left; reflexivity). lra.
Qed.

(** a function that vanishes away from [c] sums to at most its value at [c] *)
Lemma full_sum_single (g : nat -> Q) (c : nat) (v : Q) (js : list nat) :
  NoDup js ->
  (forall j, In j js -> j <> c -> g j == 0) ->
  g c <= v -> 0 <= v ->
  forall t, full_sum g js t <= t + v.
Proof.
  intros Hnd Hg Hc Hv. induction Hnd as [| j js Hj Hnd IH]; intros t.
  - unfold full_sum. simpl. lra.
  - change (full_sum g (j :: js) t) with (full_sum g js (t + g j)).
    destruct (decide (j = c)) as [-> | Hne].
    + rewrite (full_sum_zero g js) with (t := t + g c); [lra | | reflexivity].
      intros j' Hj'. apply Hg; [right; exact Hj' |].
      intros ->. apply Hj. apply list_elem_of_In. exact Hj'.
    + eapply Qle_trans.
      * apply IH. intros j' Hj'. apply Hg. right. exact Hj'.
      * pose proof (Hg j (or_introl eq_refl) Hne) as H0. lra.
Qed.

Lemma skip_le_full (f g : nat -> Q) (i : nat) (js : list nat) :
  (forall j, In j js -> 0 <= g j) ->
  (forall j, In j js -> j <> i -> f j <= g j) ->
  forall s t, s <= t -> skip_sum f i js s <= full_sum g js t.
Proof.
  unfold skip_sum, full_sum.
  induction js as [| j js IH]; intros Hg Hfg s t Hst; simpl; [exact Hst |].
  assert (Hg0 : 0 <= g j) by (apply Hg; left; reflexivity).
  apply IH.
  - intros j' Hj'. apply Hg. right. exact Hj'.
  - intros j' Hj'. apply Hfg. right. exact Hj'.
  - destruct (Nat.eqb_spec j i) as [-> | Hne]; [lra |].
    specialize (Hfg j (or_introl eq_refl) Hne). lra.
Qed.

Section SplineSystem.
Variable hk : list Q.
Hypothesis Hk : (3 <= length hk)%nat.
Hypothesis Hpos : forall i, (i < length hk)%nat -> 0 < at_ hk i.

Lemma system_entry (i j : nat) :
  (i < length hk - 1)%nat -> (j < length hk - 1)%nat ->
  at2 (system_matrix hk) i j
  = if (j =? i)%nat then 2 * (at_ hk i + at_ hk (i + 1))
    else if (j + 1 =? i)%nat then at_ hk i
    else if (j =? i + 1)%nat then at_ hk (i + 1)
    else 0.
Proof.
  intros Hi Hj. unfold at2.
  replace i with (i + 1 - 1)%nat at 1 by lia.
  rewrite system_matrix_row by lia.
  replace j with (j + 1 - 1)%nat at 1 by lia.
  rewrite system_row_entry by lia.
  replace (i + 1 - 1)%nat with i by lia.
  destruct (Nat.eqb_spec (j + 1) (i + 1)), (Nat.eqb_spec j i); try lia; [reflexivity |].
  destruct (Nat.eqb_spec (j + 1) i); [reflexivity |].
  destruct (Nat.eqb_spec (j + 1) (i + 1 + 1)), (Nat.eqb_spec j (i + 1));
    try lia; reflexivity.
Qed.

Lemma system_diag_pos (i : nat) :
  (i < length hk - 1)%nat -> 0 < at2 (system_matrix hk) i i.
Proof.
  intros Hi. rewrite system_entry, Nat.eqb_refl by exact Hi.
  pose proof (Hpos i ltac:(lia)). pose proof (Hpos (i + 1)%nat ltac:(lia)). lra.
Qed.

Lemma system_ncols : ncols (system_matrix hk) = length (system_matrix hk).
Proof.
  unfold ncols. change 0%nat with (1 - 1)%nat.
  rewrite system_matrix_row, length_system_row, length_system_matrix by lia.
  reflexivity.
Qed.

Lemma system_rows (i : nat) :
  (i < length (system_matrix hk))%nat ->
  length (nth i (system_matrix hk) []) = length (system_matrix hk).
Proof.
  rewrite length_system_matrix. intros Hi.
  replace i with (i + 1 - 1)%nat by lia.
  rewrite system_matrix_row, length_system_row by lia. reflexivity.
Qed.

(** each row: the neighbours add up to half the diagonal *)
Lemma system_dominant (i : nat) :
  (i < length (system_matrix hk))%nat ->
  off_sum (system_matrix hk) i <= (1 # 2) * Qabs (at2 (system_matrix hk) i i).
Proof.
  rewrite length_system_matrix. intros Hi.
  pose proof (Hpos i ltac:(lia)) as Hh0.
  pose proof (Hpos (i + 1)%nat ltac:(lia)) as Hh1.
  rewrite Qabs_pos by (apply Qlt_le_weak, system_diag_pos; exact Hi).
  rewrite system_entry, Nat.eqb_refl by exact Hi.
  unfold off_sum. rewrite system_ncols, length_system_matrix.
  set (g1 := fun j : nat => if (j + 1 =? i)%nat then at_ hk i else 0).
  set (g2 := fun j : nat => if (j =? i + 1)%nat then at_ hk (i + 1) else 0).
  eapply Qle_trans.
  - apply (skip_le_full _ (fun j => g1 j + g2 j)) with (t := 0); [| | lra].
    + intros j _. unfold g1, g2.
      destruct (j + 1 =? i)%nat, (j =? i + 1)%nat; lra.
    + intros j Hj Hne. rewrite in_seq in Hj.
      rewrite system_entry by lia. unfold g1, g2.
      destruct (Nat.eqb_spec j i) as [-> | _]; [lia |].
      destruct (Nat.eqb_spec (j + 1) i), (Nat.eqb_spec j (i + 1));
        try lia; rewrite Qabs_pos by lra; lra.
  - rewrite (full_sum_add g1 g2 _ 0 0) by lra.
    assert (H1 : full_sum g1 (seq 0 (length hk - 1)) 0 <= 0 + at_ hk i).
    { apply (full_sum_single g1 (i - 1)); [apply NoDup_seq | | | lra].
      - intros j _ Hne. unfold g1.
        destruct (Nat.eqb_spec (j + 1) i); [lia | reflexivity].
      - unfold g1. destruct (i - 1 + 1 =? i)%nat; lra. }
    assert (H2 : full_sum g2 (seq 0 (length hk - 1)) 0 <= 0 + at_ hk (i + 1)).
    { apply (full_sum_single g2 (i + 1)); [apply NoDup_seq | | | lra].
      - intros j _ Hne. unfold g2.
        destruct (Nat.eqb_spec j (i + 1)); [lia | reflexivity].
      - unfold g2. rewrite Nat.eqb_refl. lra. }
    lra.
Qed.

End SplineSystem.

(** For points with increasing abscissas the solver returns, whatever the
    ordinates: the call of [relajacion] in [trazador_cubico] terminates. *)
Lemma spline_of_terminates (points : list (point Q)) :
  (4 <= length points)%nat ->
  strictly_increasing (xs points) = true ->
  exists fuel cf, forall fuel', (fuel <= fuel')%nat ->
    spline_of fuel' points = Returned cf.
Proof.
  intros Hn Hinc.
  set (hk := knot_spacing points).
  assert (Hlen : length hk = (length points - 1)%nat) by apply length_knot_spacing.
  assert (Hpos : forall i, (i < length hk)%nat -> 0 < at_ hk i).
  { intros i Hi. unfold hk. rewrite knot_spacing_at by lia.
    change (0 < at_ (xs points) (i + 1) - at_ (xs points) i).
    pose proof (strictly_increasing_at (xs points) Hinc i) as Hlt.
    rewrite length_xs in Hlt. specialize (Hlt ltac:(lia)). lra. }
  assert (Hk : (3 <= length hk)%nat) by lia.
  set (A := system_matrix hk).
  set (rhs := system_vector hk (delta_y points)).
  assert (Hrhs : length rhs = length A)
    by (unfold rhs, A; rewrite length_system_vector, length_system_matrix; reflexivity).
  destruct (sweeps_reach_tolerance A rhs (1 # 2) (1 # 2)) with
    (x := replicate (length rhs) (zero (H := Q_exact))) (tol := 1 # 100000000)
    as (k & Hk').
  - apply system_ncols; assumption.
  - apply system_rows; assumption.
  - exact Hrhs.
  - lra.
  - lra.
  - intros i Hi. unfold A in Hi. rewrite length_system_matrix in Hi.
    pose proof (system_diag_pos hk Hk Hpos i Hi). fold A in H. lra.
  - apply system_dominant; assumption.
  - rewrite length_replicate. exact Hrhs.
  - reflexivity.
  - destruct (sor_enough_fuel A rhs (1 # 2) (1 # 100000000) _ k Hk') as (fuel & x' & Hfuel).
    exists fuel, (build_coefficients points (assemble x')).
    intros fuel' Hle. unfold spline_of. rewrite solve_sigmas_sor.
    fold hk. fold A. fold rhs.
    change omega_default with (1 # 2). change tol_default with (1 # 100000000).
    rewrite (Hfuel fuel' Hle). reflexivity.
Qed.

(** Over the rationals the loop ends exactly when [tol] is not negative
    and the norm of the residual is at most [tol]. *)
Lemma above_false_iff (A : list (list Q)) (b x : list Q) (tol : Q) :
  above A b tol x = false
  <-> 0 <= tol /\ sum_sq (residual_vec A b x) <= tol * tol.
Proof.
  unfold above. change (norm_gt ?r ?t) with (Q_norm_gt r t). unfold Q_norm_gt.
  rewrite orb_false_iff, !negb_false_iff, !Qle_bool_iff. reflexivity.
Qed.

(** the second derivatives are assembled for every such sequence *)
Lemma solve_sigmas_terminates (points : list (point Q)) :
  (4 <= length points)%nat ->
  strictly_increasing (xs points) = true ->
  exists fuel sigma, forall fuel', (fuel <= fuel')%nat ->
    solve_sigmas fuel' points = Some sigma.
Proof.
  intros Hn Hinc.
  destruct (spline_of_terminates points Hn Hinc) as (fuel & cf & Hfuel).
  specialize (Hfuel fuel (Nat.le_refl fuel)) as Hrun. unfold spline_of in Hrun.
  destruct (solve_sigmas fuel points) as [sigma |] eqn:Hs; [| discriminate].
  exists fuel, sigma. intros fuel' Hle.
  rewrite solve_sigmas_sor in Hs |- *.
  destruct (sor fuel _ _ _ _ _) as [x |] eqn:Hsor; [| discriminate].
  apply sor_returns_iff in Hsor. destruct Hsor as (k & Hk & Hx & Hlast & Hbefore).
  assert (Hsor' : sor fuel' (system_matrix (knot_spacing points))
                      (system_vector (knot_spacing points) (delta_y points))
                      omega_default tol_default
                      (replicate (length (system_vector (knot_spacing points)
                                                        (delta_y points))) zero)
                  = Some x).
  { apply sor_returns_iff. exists k. repeat split; [lia | exact Hx | exact Hlast | exact Hbefore]. }
  rewrite Hsor'. exact Hs.
Qed.


(** *** Runs over the rationals *)

Lemma tiny_sweeps_positive (k : nat) :
  exists q : Q,
    sweeps tiny_A tiny_b omega_default k [0] = [q]
    /\ 0 <= q /\ ((1 <= k)%nat -> 0 < q).
Proof.
  induction k as [| k (q & Hq & Hpos & _)].
  - exists 0. repeat split; [lra | lia].
  - exists ((1 - (1 # 2)) * q + ((1 # 2) / 1) * ((1 # 1000000000) - 0)).
    split; [| split; [| intros _]].
    + change (sweeps tiny_A tiny_b omega_default (S k) [0])
        with (sweep_vec tiny_A tiny_b omega_default
                (sweeps tiny_A tiny_b omega_default k [0])).
      rewrite Hq. reflexivity.
    + unfold Qdiv. change (/ 1) with 1. lra.
    + unfold Qdiv. change (/ 1) with 1. lra.
Qed.

(** C4 (as stated) fails: on the 1x1 system [x = 1e-9] with the initial
    guess [0] and the default [omega] and [tol], the first test already
    passes and the copy of the guess is returned as it is, although no
    number of full sweeps, one or more, leads back to [0]. *)
Lemma relajacion_returns_without_sweep :
  relajacion 1 tiny_A tiny_b 0 omega_default tol_default [[0]]
    = Some (1%nat, [[0]; [0]])
  /\ forall k, (1 <= k)%nat ->
       sweeps tiny_A tiny_b omega_default k [0] <> [0].
Proof.
  split; [reflexivity |].
  intros k Hk Heq. destruct (tiny_sweeps_positive k) as (q & Hq & _ & Hpos).
  rewrite Hq in Heq. injection Heq as ->. specialize (Hpos Hk). lra.
Qed.

Lemma relajacion_tests_then_sweeps_witness :
  exists k, (k < 1)%nat
    /\ read [[0]; [0]] 1
       = sweeps tiny_A tiny_b omega_default k (read [[0]] 0)
    /\ above tiny_A tiny_b tol_default (read [[0]; [0]] 1)
       = false
    /\ forall j, (j < k)%nat ->
         above tiny_A tiny_b tol_default
               (sweeps tiny_A tiny_b omega_default j
                       (read [[0]] 0)) = true.
Proof.
  exact (proj1 (relajacion_tests_then_sweeps 1 tiny_A tiny_b 0
                  omega_default tol_default [[0]])
               1%nat [[0]; [0]] eq_refl).
Defined.



End Exact.

(** ** Runs with normalised fractions *)

Module Reduced.
#[local] Existing Instance Q_reduced.

(** C1 (failing input): for the four points of the end-to-end scenario the
    call returns two cubics, for the segments [0,1] and [1,2]; no cubic is
    returned for the third segment [2,3]. *)
Theorem zigzag4_loses_last_segment :
  exists a b c d,
    trazador_cubico 50 (VList zigzag4) = Returned (a, b, c, d)
    /\ length zigzag4 - 1 = 3
    /\ length a = 2 /\ length b = 2 /\ length c = 2 /\ length d = 2.
Proof.
  do 4 eexists. split; [vm_compute; reflexivity |]. repeat split.
Qed.

Lemma trazador_cubico_coefficients_witness :
  exists a b c d points sigma,
    trazador_cubico 50 (VList zigzag4) = Returned (a, b, c, d)
    /\ (VList zigzag4 = VList points \/ VList zigzag4 = VTuple points)
    /\ solve_sigmas 50 points = Some sigma
    /\ forall i, i < length a ->
         at_ d i = at_ (ys points) i.
Proof.
  assert (Hrun : { cf | trazador_cubico 50 (VList zigzag4) = Returned cf }).
  { eexists. vm_compute. reflexivity. }
  destruct Hrun as ([[[a b] c] d] & Hrun).
  destruct (trazador_cubico_coefficients 50 (VList zigzag4) a b c d Hrun)
    as (points & sigma & Hv & Hs & Hcoef).
  exists a, b, c, d, points, sigma.
  split; [exact Hrun |]. split; [exact Hv |]. split; [exact Hs |].
  intros i Hi. apply (Hcoef i Hi).
Defined.

Lemma trazador_cubico_system_witness :
  4 <= length zigzag4
  /\ length (system_matrix (knot_spacing zigzag4)) = length zigzag4 - 2
  /\ system_matrix (knot_spacing zigzag4) = zigzag_A
  /\ system_vector (knot_spacing zigzag4) (delta_y zigzag4) = zigzag_b.
Proof.
  assert (Hn : 4 <= length zigzag4) by (simpl; lia).
  split; [exact Hn |].
  split; [exact (proj1 (trazador_cubico_system 50 zigzag4 Hn)) |].
  split; reflexivity.
Defined.

Lemma relajacion_keeps_x0_witness :
  exists x st',
    relajacion 50 zigzag_A zigzag_b 0 omega_default tol_default
               [[0%Q; 0%Q]] = Some (x, st')
    /\ 0 < length [[0%Q; 0%Q]]
    /\ x <> 0
    /\ read st' 0 = read [[0%Q; 0%Q]] 0.
Proof.
  assert (Hrun : { r | relajacion 50 zigzag_A zigzag_b 0
                         omega_default tol_default [[0%Q; 0%Q]] = Some r }).
  { eexists. vm_compute. reflexivity. }
  destruct Hrun as ([x st'] & Hrun).
  assert (Hx0 : 0 < length [[0%Q; 0%Q]]) by (simpl; lia).
  destruct (proj1 (relajacion_keeps_x0 50 zigzag_A zigzag_b 0
                     omega_default tol_default [[0%Q; 0%Q]] Hx0) x st' Hrun)
    as (Hne & Hkeep & _).
  exists x, st'.
  split; [exact Hrun |]. split; [exact Hx0 |]. split; [exact Hne | exact Hkeep].
Defined.

Lemma sigmas_boundary_witness :
  exists sigma,
    solve_sigmas 50 zigzag4 = Some sigma
    /\ 4 <= length zigzag4
    /\ length sigma = length zigzag4
    /\ at_ sigma 0 = zero
    /\ at_ sigma (length zigzag4 - 1) = zero.
Proof.
  assert (Hrun : { s | solve_sigmas 50 zigzag4 = Some s }).
  { eexists. vm_compute. reflexivity. }
  destruct Hrun as (sigma & Hrun).
  assert (Hn : 4 <= length zigzag4) by (simpl; lia).
  exists sigma. split; [exact Hrun |]. split; [exact Hn |].
  exact (sigmas_boundary 50 zigzag4 sigma Hn Hrun).
Defined.

End Reduced.

(** ** More on the solver *)

Section SolverShape.
Context {R : Type} `{Numeric R}.

(** The array [relajacion] returns is not one of the arrays of the caller:
    it is the copy made by [x0.copy()], at an address that was free before
    the call, and it has the length of [x0]. *)
Theorem relajacion_result_shape fuel (A : list (list R)) (b : list R) (x0 : nat)
        (omega tol : R) (st : list (list R)) (x : nat) (st' : list (list R)) :
  relajacion fuel A b x0 omega tol st = Some (x, st') ->
  x = length st
  /\ length (read st' x) = length (read st x0).
Proof.
  unfold relajacion.
  change (alloc (read st x0) st) with (length st, st ++ [read st x0]).
  cbv beta iota.
  pose proof (relajacion_loop_refine A b omega tol (length st) fuel
                (st ++ [read st x0])) as Hloop.
  destruct (relajacion_loop fuel A b omega tol (length st) (st ++ [read st x0]))
    as [st2 |]; [| discriminate].
  intros [= <- <-]. destruct Hloop as (Hsor & Hlen & _).
  split; [reflexivity |].
  apply sor_length in Hsor. rewrite Hsor. unfold read. rewrite nth_middle.
  reflexivity.
Qed.

End SolverShape.


(** ** More on the coefficient builder *)

(** the two run-time types [trazador_cubico] accepts *)
Definition list_or_tuple {R : Type} (container : list (point R) -> py_value R) : Prop :=
  container = VList \/ container = VTuple.

Section BuilderShape.
Context {R : Type} `{Numeric R}.

Lemma returned_of_points fuel (container : list (point R) -> py_value R)
      (points : list (point R)) a b c d :
  list_or_tuple container ->
  trazador_cubico fuel (container points) = Returned (a, b, c, d) ->
  exists sigma,
    solve_sigmas fuel points = Some sigma
    /\ 4 <= length points
    /\ (a, b, c, d) = build_coefficients points sigma
    /\ forall i, i < length points - 2 ->
         at_ a i = (at_ sigma (i + 1) ⊖ at_ sigma i) ⊘ (six ⊗ at_ (knot_spacing points) i)
         /\ at_ b i = at_ sigma i ⊘ two
         /\ at_ c i = at_ (delta_y points) i ⊘ at_ (knot_spacing points) i
                        ⊖ (two ⊗ at_ (knot_spacing points) i ⊗ at_ sigma i
                             ⊕ at_ (knot_spacing points) i ⊗ at_ sigma (i + 1)) ⊘ six
         /\ at_ d i = at_ (ys points) i.
Proof.
  intros Hc Hret.
  destruct (trazador_cubico_returned fuel _ _ Hret) as (pts & sigma & Hv & Hn & Hs & Hcf).
  assert (Hpts : pts = points).
  { destruct Hc as [-> | ->], Hv as [Hv | Hv]; congruence. }
  subst pts. exists sigma. split; [exact Hs |]. split; [exact Hn |].
  split; [exact Hcf |].
  destruct (returned_coefficients fuel _ a b c d Hret) as (pts & sigma' & Hv' & Hs' & Hform).
  assert (Hpts : pts = points).
  { destruct Hc as [-> | ->], Hv' as [Hv' | Hv']; congruence. }
  subst pts. assert (sigma' = sigma) by congruence. subst sigma'.
  intros i Hi. apply Hform.
  pose proof (lengths_returned points sigma) as Hlen. rewrite <- Hcf in Hlen.
  destruct Hlen as (-> & _). exact Hi.
Qed.

Lemma returned_length_a fuel (container : list (point R) -> py_value R)
      (points : list (point R)) a b c d :
  list_or_tuple container ->
  trazador_cubico fuel (container points) = Returned (a, b, c, d) ->
  length a = length points - 2 /\ 4 <= length points.
Proof.
  intros Hc Hret.
  destruct (returned_of_points fuel container points a b c d Hc Hret)
    as (sigma & _ & Hn & Hcf & _).
  pose proof (lengths_returned points sigma) as Hlen. rewrite <- Hcf in Hlen.
  destruct Hlen as (Ha & _). split; [exact Ha | exact Hn].
Qed.

(** The four arrays returned for [n] points have the same length [n-2], so
    every index [i < len(a)] that [plot_ncsi] uses is inside [b], [c], [d]
    and [points[i+1]] exists. *)
Theorem returned_arrays_shape fuel (container : list (point R) -> py_value R)
        (points : list (point R)) a b c d :
  list_or_tuple container ->
  trazador_cubico fuel (container points) = Returned (a, b, c, d) ->
  length a = length points - 2
  /\ length b = length a /\ length c = length a /\ length d = length a
  /\ length a + 1 < length points.
Proof.
  intros Hc Hret.
  destruct (returned_of_points fuel container points a b c d Hc Hret)
    as (sigma & _ & Hn & Hcf & _).
  pose proof (lengths_returned points sigma) as Hlen. rewrite <- Hcf in Hlen.
  destruct Hlen as (Ha & Hb & Hc' & Hd). repeat split; lia.
Qed.

End BuilderShape.

(** four points that are almost on a line: over the rationals one sweep
    reaches [tol] *)
Definition bend4 : list (point Q) := [(0, 0); (1, 0); (2, 0); (3, 0.0000000025)]%Q.

(** ** The curve computed by [plot_ncsi] *)

Section Plot.
Context {R : Type} `{Numeric R}.
(** [u <= v] on the numbers of the program *)
Variable leb : R -> R -> bool.

(** what the loop [for i in range(a.shape[0])] appends to [pk] for one
    sample [xk], when every read is inside its list ([plot_pk] below has
    the reads that raise [IndexError]) *)
Definition pk_of_sample (points : list (point R)) (a b c d : list R) (xk : R)
  : list (R * R) :=
  flat_map
    (fun i =>
       if leb (at_ (xs points) i) xk && leb xk (at_ (xs points) (i + 1))
       then [(xk, eval_segment points a b c d i xk)]
       else [])
    (seq 0 (length a)).


End Plot.

Module ExactPlot.
Import Exact.
#[local] Existing Instance Q_exact.
Local Open Scope Q_scope.

Lemma increasing_lt (l : list Q) :
  strictly_increasing l = true ->
  forall i j, (i < j)%nat -> (j < length l)%nat -> at_ l i < at_ l j.
Proof.
  intros Hinc i j Hij. induction j as [| j IH]; intros Hj; [lia |].
  pose proof (strictly_increasing_at l Hinc j ltac:(lia)) as Hstep.
  replace (j + 1)%nat with (S j) in Hstep by lia.
  destruct (decide (i = j)) as [-> | Hne]; [exact Hstep |].
  specialize (IH ltac:(lia) ltac:(lia)). lra.
Qed.

Lemma increasing_le (l : list Q) :
  strictly_increasing l = true ->
  forall i j, (i <= j)%nat -> (j < length l)%nat -> at_ l i <= at_ l j.
Proof.
  intros Hinc i j Hij Hj. destruct (decide (i = j)) as [-> | Hne]; [apply Qle_refl |].
  apply Qlt_le_weak, (increasing_lt l Hinc); lia.
Qed.

Lemma Qle_bool_false (u v : Q) : v < u -> Qle_bool u v = false.
Proof.
  intros Hlt. destruct (Qle_bool u v) eqn:E; [| reflexivity].
  apply Qle_bool_iff in E. lra.
Qed.


Lemma flat_map_nil_on {B : Type} (f : nat -> list B) (l : list nat) :
  (forall j, In j l -> f j = []) -> flat_map f l = [].
Proof.
  induction l as [| j l IH]; intros Hf; simpl; [reflexivity |].
  rewrite (Hf j) by (left; reflexivity). simpl. apply IH.
  intros j' Hj'. apply Hf. right. exact Hj'.
Qed.




(** A sample left of the first knot or right of the last knot that has
    coefficients, [points[len(a)]], adds nothing to [pk]. *)
Theorem sample_outside_range (points : list (point Q)) (a b c d : list Q) (xk : Q) :
  strictly_increasing (xs points) = true ->
  (length a < length points)%nat ->
  xk < at_ (xs points) 0 \/ at_ (xs points) (length a) < xk ->
  pk_of_sample Qle_bool points a b c d xk = [].
Proof.
  intros Hinc Hlen Hout. unfold pk_of_sample.
  assert (Hxs : length (xs points) = length points) by apply length_xs.
  apply flat_map_nil_on. intros j Hj. rewrite in_seq in Hj.
  destruct Hout as [Hlo | Hhi].
  - pose proof (increasing_le (xs points) Hinc 0 j ltac:(lia) ltac:(lia)).
    rewrite (Qle_bool_false _ xk) by lra. reflexivity.
  - pose proof (increasing_le (xs points) Hinc (j + 1) (length a) ltac:(lia) ltac:(lia)).
    rewrite (Qle_bool_false xk) by lra. rewrite andb_false_r. reflexivity.
Qed.


Lemma bend4_run :
  { cf | trazador_cubico 2 (VList bend4) = Returned cf }.
Proof. eexists. vm_compute. reflexivity. Defined.


Lemma sample_outside_range_witness :
  exists a b c d,
    trazador_cubico 2 (VList bend4) = Returned (a, b, c, d)
    /\ pk_of_sample Qle_bool bend4 a b c d (5 # 2) = [].
Proof.
  destruct bend4_run as ([[[a b] c] d] & Hrun).
  destruct (returned_length_a 2 VList bend4 a b c d (or_introl eq_refl) Hrun)
    as (Ha & _).
  exists a, b, c, d. split; [exact Hrun |].
  apply (sample_outside_range bend4 a b c d (5 # 2)).
  - reflexivity.
  - rewrite Ha. simpl. lia.
  - right. rewrite Ha. reflexivity.
Defined.


End ExactPlot.

(** ** More runs with normalised fractions *)

Module ReducedRuns.
#[local] Existing Instance Q_reduced.

Lemma relajacion_result_shape_witness :
  exists x st',
    relajacion 50 zigzag_A zigzag_b 0 omega_default tol_default [[0%Q; 0%Q]]
      = Some (x, st')
    /\ x = length [[0%Q; 0%Q]]
    /\ length (read st' x) = length (read [[0%Q; 0%Q]] 0).
Proof.
  assert (Hrun : { r | relajacion 50 zigzag_A zigzag_b 0
                         omega_default tol_default [[0%Q; 0%Q]] = Some r }).
  { eexists. vm_compute. reflexivity. }
  destruct Hrun as ([x st'] & Hrun).
  exists x, st'. split; [exact Hrun |].
  exact (relajacion_result_shape 50 zigzag_A zigzag_b 0 omega_default tol_default
           [[0%Q; 0%Q]] x st' Hrun).
Defined.

Lemma returned_arrays_shape_witness :
  exists a b c d,
    trazador_cubico 50 (VList zigzag4) = Returned (a, b, c, d)
    /\ length a = length zigzag4 - 2
    /\ length b = length a /\ length c = length a /\ length d = length a
    /\ length a + 1 < length zigzag4.
Proof.
  assert (Hrun : { cf | trazador_cubico 50 (VList zigzag4) = Returned cf }).
  { eexists. vm_compute. reflexivity. }
  destruct Hrun as ([[[a b] c] d] & Hrun).
  exists a, b, c, d. split; [exact Hrun |].
  exact (returned_arrays_shape 50 VList zigzag4 a b c d (or_introl eq_refl) Hrun).
Defined.

End ReducedRuns.

(** ** The call on four points, and a loop that does not end *)

Section Stall.
Context {R : Type} `{Numeric R}.
Implicit Types (A : list (list R)) (b x : list R) (omega tol : R).

Lemma sweeps_fixed A b omega (k : nat) x :
  sweep_vec A b omega (sweeps A b omega k x) = sweeps A b omega k x ->
  forall j, k <= j -> sweeps A b omega j x = sweeps A b omega k x.
Proof.
  intros Hfix j Hj. induction j as [| j IH].
  - replace k with 0 by lia. reflexivity.
  - destruct (decide (k = S j)) as [-> | Hne]; [reflexivity |].
    change (sweeps A b omega (S j) x) with (sweep_vec A b omega (sweeps A b omega j x)).
    rewrite IH by lia. exact Hfix.
Qed.

(** If the estimate stops changing while the test still fails, the loop
    never returns. *)
Lemma sor_stalls A b omega tol (k : nat) x :
  (forall j, j <= k -> above A b tol (sweeps A b omega j x) = true) ->
  sweep_vec A b omega (sweeps A b omega k x) = sweeps A b omega k x ->
  forall fuel, sor fuel A b omega tol x = None.
Proof.
  intros Habove Hfix fuel.
  destruct (sor fuel A b omega tol x) as [x' |] eqn:Hsor; [| reflexivity].
  apply sor_returns_iff in Hsor. destruct Hsor as (k' & _ & -> & Hlast & _).
  destruct (decide (k' <= k)) as [Hle | Hgt].
  - rewrite Habove in Hlast by exact Hle. discriminate.
  - rewrite (sweeps_fixed A b omega k x Hfix k') in Hlast by lia.
    rewrite Habove in Hlast by lia. discriminate.
Qed.

(** [trazador_cubico] on a list or tuple of at least four points is the
    solver run on the system of the points. *)
Lemma trazador_cubico_runs_solver fuel (container : list (point R) -> py_value R)
      (points : list (point R)) :
  list_or_tuple container ->
  4 <= length points ->
  trazador_cubico fuel (container points)
  = match sor fuel (system_matrix (knot_spacing points))
              (system_vector (knot_spacing points) (delta_y points))
              omega_default tol_default
              (replicate (length points - 2) zero) with
    | Some x => Returned (build_coefficients points (assemble x))
    | None => Running
    end.
Proof.
  intros Hc Hn.
  assert (Hlt : (length points <? 4) = false) by (apply Nat.ltb_ge; exact Hn).
  assert (Hlen : length (system_vector (knot_spacing points) (delta_y points))
                 = length points - 2)
    by (rewrite length_system_vector, length_knot_spacing; lia).
  destruct Hc as [-> | ->]; unfold trazador_cubico, spline_of; rewrite Hlt;
    rewrite solve_sigmas_sor, Hlen;
    destruct (sor fuel _ _ _ _ _); reflexivity.
Qed.

(** C7 (as amended): a list or tuple of fewer than four points, and a value
    that is neither a list nor a tuple, are rejected with a [ValueError]
    whatever the fuel, before any step of the solver.  A list or tuple of
    exactly four points is never rejected: the call hands its system to the
    solver and returns the coefficients of the first estimate that passes
    the residual test, and it returns nothing as long as no estimate does. *)
Theorem trazador_cubico_validation fuel (points : list (point R)) :
  (length points < 4 ->
   trazador_cubico fuel (VList points)
     = Raised (ValueError "The length of 'points' must be greater than 1")
   /\ trazador_cubico fuel (VTuple points)
     = Raised (ValueError "The length of 'points' must be greater than 1"))
  /\ (forall name,
        trazador_cubico fuel (VNdarray points)
          = Raised (ValueError "'points' must be a list or tuple")
        /\ trazador_cubico (R := R) fuel (VOther name)
          = Raised (ValueError "'points' must be a list or tuple"))
  /\ (length points = 4 ->
      forall container, list_or_tuple container ->
        let A := system_matrix (knot_spacing points) in
        let rhs := system_vector (knot_spacing points) (delta_y points) in
        let guess := replicate 2 zero in
        (forall e, trazador_cubico fuel (container points) <> Raised e)
        /\ (forall cf,
              trazador_cubico fuel (container points) = Returned cf
              <-> exists k, k < fuel
                    /\ above A rhs tol_default (sweeps A rhs omega_default k guess) = false
                    /\ (forall j, j < k ->
                          above A rhs tol_default (sweeps A rhs omega_default j guess)
                          = true)
                    /\ cf = build_coefficients points
                              (assemble (sweeps A rhs omega_default k guess)))).
Proof.
  split; [| split].
  - intros Hlen. apply Nat.ltb_lt in Hlen.
    unfold trazador_cubico. rewrite Hlen. split; reflexivity.
  - intros name. split; reflexivity.
  - intros Hlen container Hc A rhs guess.
    rewrite (trazador_cubico_runs_solver fuel container points Hc) by lia.
    rewrite Hlen. change (4 - 2) with 2. fold A rhs guess.
    split.
    + intros e. destruct (sor fuel A rhs omega_default tol_default guess); discriminate.
    + intros cf. split.
      * destruct (sor fuel A rhs omega_default tol_default guess) as [x |] eqn:Hsor;
          [| discriminate].
        intros [= <-]. apply sor_returns_iff in Hsor.
        destruct Hsor as (k & Hk & -> & Hlast & Hbefore).
        exists k. repeat split; assumption.
      * intros (k & Hk & Hlast & Hbefore & ->).
        assert (Hsor : sor fuel A rhs omega_default tol_default guess
                       = Some (sweeps A rhs omega_default k guess)).
        { apply sor_returns_iff. exists k. repeat split; assumption. }
        rewrite Hsor. reflexivity.
Qed.

End Stall.

(** inputs written as [float64] literals *)

(** ** The loop of [plot_ncsi], with the reads that can fail *)

Section PlotLoop.
Context {R : Type} `{Numeric R}.
(** [u <= v] on the numbers of the program *)
Variable leb : R -> R -> bool.

(** [points[i][0] <= xk <= points[i+1][0]]: Python evaluates the chain from
    the left and reads [points[i+1]] only when the first comparison holds.
    A read past the end of the list raises [IndexError]: [None]. *)
Definition in_segment (points : list (point R)) (xk : R) (i : nat) : option bool :=
  match points !! i with
  | None => None
  | Some p =>
      if leb (fst p) xk
      then match points !! (i + 1) with
           | None => None
           | Some q => Some (leb xk (fst q))
           end
      else Some false
  end.

(** the point appended for segment [i]; [b[i]], [c[i]] and [d[i]] raise
    [IndexError] past the end of their arrays *)
Definition segment_point (points : list (point R)) (a b c d : list R) (xk : R)
           (i : nat) : option (R * R) :=
  if (i <? length b) && (i <? length c) && (i <? length d)
  then Some (xk, eval_segment points a b c d i xk)
  else None.

(** [for i in range(a.shape[0])] for one sample, appending to [pk] *)
Fixpoint pk_segments (points : list (point R)) (a b c d : list R) (xk : R)
         (segments : list nat) (pk : list (R * R)) : option (list (R * R)) :=
  match segments with
  | [] => Some pk
  | i :: rest =>
      match in_segment points xk i with
      | None => None
      | Some false => pk_segments points a b c d xk rest pk
      | Some true =>
          match segment_point points a b c d xk i with
          | None => None
          | Some p => pk_segments points a b c d xk rest (pk ++ [p])
          end
      end
  end.

(** [for xk in x] *)
Fixpoint pk_samples (points : list (point R)) (a b c d : list R) (x : list R)
         (pk : list (R * R)) : option (list (R * R)) :=
  match x with
  | [] => Some pk
  | xk :: rest =>
      match pk_segments points a b c d xk (seq 0 (length a)) pk with
      | None => None
      | Some pk' => pk_samples points a b c d rest pk'
      end
  end.

(** [pk] after the two loops, for the samples [x]; [None] when the loops
    raise [IndexError] *)
Definition plot_pk (points : list (point R)) (a b c d : list R) (x : list R)
  : option (list (R * R)) :=
  pk_samples points a b c d x [].

Lemma lookup_abscissa (points : list (point R)) (i : nat) p :
  points !! i = Some p -> at_ (xs points) i = fst p.
Proof.
  intros Hp. apply at_lookup. unfold xs.
  change (map fst points) with (fst <$> points).
  rewrite list_lookup_fmap. exact (f_equal (fmap fst) Hp).
Qed.

Lemma pk_segments_in_range (points : list (point R)) (a b c d : list R) (xk : R)
      (segments : list nat) :
  (forall i, In i segments ->
     i + 1 < length points /\ i < length b /\ i < length c /\ i < length d) ->
  forall pk,
    pk_segments points a b c d xk segments pk
    = Some (pk ++ flat_map
                    (fun i =>
                       if leb (at_ (xs points) i) xk
                          && leb xk (at_ (xs points) (i + 1))
                       then [(xk, eval_segment points a b c d i xk)]
                       else [])
                    segments).
Proof.
  induction segments as [| i rest IH]; intros Hin pk; cbn [pk_segments flat_map].
  - rewrite app_nil_r. reflexivity.
  - destruct (Hin i (or_introl eq_refl)) as (Hp & Hb & Hc & Hd).
    assert (Hrest : forall j, In j rest ->
              j + 1 < length points /\ j < length b /\ j < length c /\ j < length d)
      by (intros j Hj; apply Hin; right; exact Hj).
    destruct (lookup_lt_is_Some_2 points i ltac:(lia)) as (p & Ep).
    destruct (lookup_lt_is_Some_2 points (i + 1) Hp) as (q & Eq).
    unfold in_segment. unfold point in *. rewrite Ep, Eq.
    rewrite (lookup_abscissa points i p Ep), (lookup_abscissa points (i + 1) q Eq).
    destruct (leb (fst p) xk); cbn [andb app]; [| apply IH; exact Hrest].
    destruct (leb xk (fst q)); cbn [andb app]; [| apply IH; exact Hrest].
    unfold segment_point.
    apply Nat.ltb_lt in Hb, Hc, Hd. rewrite Hb, Hc, Hd. cbn [andb].
    rewrite (IH Hrest). rewrite <- app_assoc. reflexivity.
Qed.

(** When every segment with coefficients has its right knot among the
    points ([len(a) < len(points)]) and [b], [c], [d] are as long as [a],
    the loops of [plot_ncsi] raise nothing, and [pk] lists, sample after
    sample in the order of [x] and, for one sample, segment after segment
    in increasing order, one point [(xk, f_i(xk))] for each segment
    [i < len(a)] with [points[i][0] <= xk <= points[i+1][0]]. *)
Theorem plot_pk_in_range (points : list (point R)) (a b c d x : list R) :
  length a < length points ->
  length a <= length b -> length a <= length c -> length a <= length d ->
  plot_pk points a b c d x = Some (flat_map (pk_of_sample leb points a b c d) x).
Proof.
  intros Hp Hb Hc Hd. unfold plot_pk.
  enough (Hgen : forall pk,
             pk_samples points a b c d x pk
             = Some (pk ++ flat_map (pk_of_sample leb points a b c d) x))
    by apply (Hgen []).
  induction x as [| xk rest IH]; intros pk; cbn [pk_samples flat_map].
  - rewrite app_nil_r. reflexivity.
  - unfold pk_of_sample at 1. rewrite pk_segments_in_range.
    + rewrite IH, <- app_assoc. reflexivity.
    + intros i Hi. rewrite in_seq in Hi. lia.
Qed.

Lemma pk_segments_raise (points : list (point R)) (a b c d : list R) (xk : R)
      (segments : list nat) (i : nat) :
  In i segments -> in_segment points xk i = None ->
  forall pk, pk_segments points a b c d xk segments pk = None.
Proof.
  intros Hi Hnone. induction segments as [| j rest IH]; intros pk; [destruct Hi |].
  cbn [pk_segments]. destruct Hi as [-> | Hi].
  - rewrite Hnone. reflexivity.
  - destruct (in_segment points xk j) as [[|] |]; [| apply IH; exact Hi | reflexivity].
    destruct (segment_point points a b c d xk j); [apply IH; exact Hi | reflexivity].
Qed.

(** With as many entries in [a] as there are points, or more, a sample at
    or right of the last abscissa makes the loop read [points[len(points)]]:
    the loops raise [IndexError].  ([np.linspace] ends on [points[-1][0]],
    so [plot_ncsi] has such a sample.) *)
Theorem plot_pk_index_error (points : list (point R)) (a b c d x : list R) (xk : R) :
  0 < length points ->
  length points <= length a ->
  In xk x ->
  leb (at_ (xs points) (length points - 1)) xk = true ->
  plot_pk points a b c d x = None.
Proof.
  intros Hn Ha Hxk Hle. unfold plot_pk.
  assert (Hseg : forall pk,
            pk_segments points a b c d xk (seq 0 (length a)) pk = None).
  { apply (pk_segments_raise points a b c d xk _ (length points - 1)).
    - rewrite in_seq. lia.
    - unfold in_segment.
      destruct (lookup_lt_is_Some_2 points (length points - 1) ltac:(lia)) as (p & Ep).
      pose proof (lookup_abscissa points _ p Ep) as Hx.
      unfold point in *. rewrite Ep, <- Hx, Hle.
      rewrite (lookup_ge_None_2 points (length points - 1 + 1)) by lia.
      reflexivity. }
  generalize (@nil (R * R)).
  induction x as [| y rest IH]; intros pk; [destruct Hxk |].
  cbn [pk_samples]. destruct Hxk as [-> | Hxk].
  - rewrite Hseg. reflexivity.
  - destruct (pk_segments points a b c d y (seq 0 (length a)) pk); [| reflexivity].
    apply IH. exact Hxk.
Qed.

End PlotLoop.

Module PlotRuns.
#[local] Existing Instance Q_exact.

Lemma plot_pk_in_range_witness :
  exists a b c d,
    trazador_cubico 2 (VList bend4) = Returned (a, b, c, d)
    /\ plot_pk Qle_bool bend4 a b c d [0; 1 # 2; 1; 3]%Q
       = Some (flat_map (pk_of_sample Qle_bool bend4 a b c d) [0; 1 # 2; 1; 3]%Q).
Proof.
  assert (Hrun : { cf | trazador_cubico 2 (VList bend4) = Returned cf }).
  { eexists. vm_compute. reflexivity. }
  destruct Hrun as ([[[a b] c] d] & Hrun).
  destruct (returned_of_points 2 VList bend4 a b c d (or_introl eq_refl) Hrun)
    as (sigma & _ & _ & Hcf & _).
  pose proof (lengths_returned bend4 sigma) as Hlen. rewrite <- Hcf in Hlen.
  destruct Hlen as (Ha & Hb & Hc & Hd).
  exists a, b, c, d. split; [exact Hrun |].
  apply (plot_pk_in_range Qle_bool bend4 a b c d).
  - rewrite Ha. simpl. lia.
  - lia.
  - lia.
  - lia.
Defined.

Lemma plot_pk_index_error_witness :
  plot_pk Qle_bool [(0, 0); (1, 1)]%Q [0; 0]%Q [0; 0]%Q [0; 0]%Q [0; 0]%Q
          [0; 1 # 2; 1]%Q = None.
Proof.
  apply (plot_pk_index_error Qle_bool [(0, 0); (1, 1)]%Q [0; 0]%Q [0; 0]%Q [0; 0]%Q
           [0; 0]%Q [0; 1 # 2; 1]%Q 1%Q).
  - simpl. lia.
  - simpl. lia.
  - simpl. tauto.
  - reflexivity.
Defined.

End PlotRuns.
Module F64Inputs.
Import PrimFloat.
(** [[0, 2.0**1023], [1, 0], [2, 2.0**1023], [3, 0]]: increasing abscissas,
    ordinates whose differences overflow *)
Definition huge4 : list (point float) :=
  [(0, 0x1p+1023); (1, 0); (2, 0x1p+1023); (3, 0)]%float.
End F64Inputs.

Module Float64.
#[local] Existing Instance F64.
Import FloatAxioms SpecFloat.

Abbreviation float := PrimFloat.float.
Abbreviation sf := FloatOps.Prim2SF.

Definition zero_sf (s : spec_float) : bool :=
  match s with S754_zero _ => true | _ => false end.

Definition finite_sf (s : spec_float) : bool :=
  match s with S754_zero _ | S754_finite _ _ _ => true | _ => false end.

Lemma SFeqb_same (s : spec_float) : s <> S754_nan -> SFeqb s s = true.
Proof.
  intros Hs. unfold SFeqb. destruct s as [z | i | | z m e]; simpl.
  - reflexivity.
  - destruct i; reflexivity.
  - congruence.
  - destruct z; rewrite Z.compare_refl, Pos.compare_cont_refl; reflexivity.
Qed.

Lemma finite_of_is_finite (x : float) :
  PrimFloat.is_finite x = true -> finite_sf (sf x) = true.
Proof.
  unfold PrimFloat.is_finite, PrimFloat.is_nan, PrimFloat.is_infinity.
  rewrite !eqb_spec, abs_spec.
  change (sf PrimFloat.infinity) with (S754_infinity false).
  destruct (sf x) as [z | i | | z m e]; simpl; try reflexivity.
  - destruct i; discriminate.
  - discriminate.
Qed.

Lemma not_nan_of_is_nan (x : float) :
  PrimFloat.is_nan x = false -> sf x <> S754_nan.
Proof.
  unfold PrimFloat.is_nan. rewrite eqb_spec. intros Hx Hnan.
  rewrite Hnan in Hx. discriminate.
Qed.

(** [x - x] is [+0] for a finite [x] *)
Lemma sub_same (x : float) :
  finite_sf (sf x) = true -> sf (PrimFloat.sub x x) = S754_zero false.
Proof.
  rewrite sub_spec. destruct (sf x) as [z | i | | z m e]; try discriminate; intros _.
  - destruct z; reflexivity.
  - unfold SF64sub, SFsub. cbv zeta. rewrite Z.sub_diag. reflexivity.
Qed.

(** a finite number times a zero is a zero *)
Lemma mul_zero_r (a z : float) :
  finite_sf (sf a) = true -> zero_sf (sf z) = true ->
  zero_sf (sf (PrimFloat.mul a z)) = true.
Proof.
  rewrite mul_spec.
  destruct (sf a) as [sa | | | sa ma ea], (sf z) as [sz | | | sz mz ez];
    try discriminate; reflexivity.
Qed.

Lemma mul_zero_l (z a : float) :
  zero_sf (sf z) = true -> finite_sf (sf a) = true ->
  zero_sf (sf (PrimFloat.mul z a)) = true.
Proof.
  rewrite mul_spec.
  destruct (sf a) as [sa | | | sa ma ea], (sf z) as [sz | | | sz mz ez];
    try discriminate; reflexivity.
Qed.

Lemma add_zeros (u v : float) :
  zero_sf (sf u) = true -> zero_sf (sf v) = true ->
  zero_sf (sf (PrimFloat.add u v)) = true.
Proof.
  rewrite add_spec.
  destruct (sf u) as [su | | |], (sf v) as [sv | | |]; try discriminate.
  destruct su, sv; reflexivity.
Qed.

(** adding a zero does not change the value *)
Lemma add_zero_l (u d : float) :
  zero_sf (sf u) = true -> sf d <> S754_nan ->
  PrimFloat.eqb (PrimFloat.add u d) d = true.
Proof.
  intros Hu Hd. rewrite eqb_spec, add_spec.
  destruct (sf u) as [su | | |]; try discriminate.
  destruct (sf d) as [sd | sd | | sd md ed] eqn:Ed.
  - destruct su, sd; reflexivity.
  - apply SFeqb_same. discriminate.
  - congruence.
  - apply SFeqb_same. discriminate.
Qed.

Lemma zero_is_finite (z : float) : zero_sf (sf z) = true -> finite_sf (sf z) = true.
Proof. destruct (sf z); try discriminate; reflexivity. Qed.

(** [z ** n] is a zero for [z] a zero and [n >= 1] *)
Lemma pow_zero (z : float) (n : nat) :
  zero_sf (sf z) = true -> zero_sf (sf (pow z (S n))) = true.
Proof.
  intros Hz. change (pow z (S n)) with (PrimFloat.mul (pow z n) z).
  induction n as [| n IH].
  - apply mul_zero_r; [reflexivity | exact Hz].
  - apply mul_zero_r; [| exact Hz].
    apply zero_is_finite.
    change (pow z (S n)) with (PrimFloat.mul (pow z n) z). exact IH.
Qed.

(** the cubic of a segment at its own left knot *)
Lemma cubic_at_own_knot (a b c d x : float) :
  PrimFloat.is_finite a = true -> PrimFloat.is_finite b = true ->
  PrimFloat.is_finite c = true -> PrimFloat.is_finite x = true ->
  PrimFloat.is_nan d = false ->
  PrimFloat.eqb
    (a ⊗ pow (x ⊖ x) 3 ⊕ b ⊗ pow (x ⊖ x) 2 ⊕ c ⊗ (x ⊖ x) ⊕ d) d = true.
Proof.
  intros Ha Hb Hc Hx Hd.
  apply finite_of_is_finite in Ha, Hb, Hc, Hx. apply not_nan_of_is_nan in Hd.
  assert (Hz : zero_sf (sf (x ⊖ x)) = true).
  { change (x ⊖ x) with (PrimFloat.sub x x). rewrite sub_same by exact Hx. reflexivity. }
  set (z := x ⊖ x) in *.
  change (PrimFloat.eqb
            (PrimFloat.add
               (PrimFloat.add
                  (PrimFloat.add (PrimFloat.mul a (pow z 3)) (PrimFloat.mul b (pow z 2)))
                  (PrimFloat.mul c z)) d) d = true).
  apply add_zero_l; [| exact Hd].
  repeat apply add_zeros; apply mul_zero_r; try assumption; apply pow_zero; exact Hz.
Qed.

(** [x_0 < x_1 < ...] with the comparison of [float64] *)
Fixpoint increasing (l : list float) : bool :=
  match l with
  | x :: (y :: _) as rest => PrimFloat.ltb x y && increasing rest
  | _ => true
  end.

(** C6 (as amended): on every segment [i] for which coefficients are
    returned, [d[i]] is [y[i]]; and when [a[i]], [b[i]], [c[i]] and the knot
    [x_i] are finite and [y_i] is a number, the cubic of [plot_ncsi]
    evaluated at [x_i] equals [y_i]: [x_i - x_i] is zero, its powers are
    zero, their products with the finite coefficients are zero, and adding
    zeros to [d[i]] leaves its value. *)
Theorem segment_interpolates_left_knot fuel (container : list (point float) -> py_value float)
        (points : list (point float)) a b c d :
  list_or_tuple container ->
  trazador_cubico fuel (container points) = Returned (a, b, c, d) ->
  forall i, i < length a ->
    at_ d i = at_ (ys points) i
    /\ (PrimFloat.is_finite (at_ a i) = true ->
        PrimFloat.is_finite (at_ b i) = true ->
        PrimFloat.is_finite (at_ c i) = true ->
        PrimFloat.is_finite (at_ (xs points) i) = true ->
        PrimFloat.is_nan (at_ (ys points) i) = false ->
        PrimFloat.eqb (eval_segment points a b c d i (at_ (xs points) i))
                      (at_ (ys points) i) = true).
Proof.
  intros Hc Hret i Hi.
  destruct (returned_length_a fuel container points a b c d Hc Hret) as (Ha & _).
  destruct (returned_of_points fuel container points a b c d Hc Hret)
    as (sigma & _ & _ & _ & Hform).
  destruct (Hform i ltac:(lia)) as (_ & _ & _ & Hd).
  split; [exact Hd |].
  intros Hfa Hfb Hfc Hfx Hy. unfold eval_segment. rewrite Hd.
  apply cubic_at_own_knot; assumption.
Qed.

(** the points of a run as [float64] *)
Definition floats (points : list (point Q)) : list (point float) :=
  map (fun p => (float_of_Q (fst p), float_of_Q (snd p))) points.

(** [[0,0],[1,1],[2,0],[3,-1]] *)
Definition zigzag4_f64 : list (point float) := floats zigzag4.

Lemma segment_interpolates_left_knot_witness :
  exists a b c d,
    trazador_cubico 41 (VList zigzag4_f64) = Returned (a, b, c, d)
    /\ at_ d 1 = at_ (ys zigzag4_f64) 1
    /\ PrimFloat.eqb (eval_segment zigzag4_f64 a b c d 1 (at_ (xs zigzag4_f64) 1))
                     (at_ (ys zigzag4_f64) 1) = true.
Proof.
  do 4 eexists. split; [vm_compute; reflexivity |].
  assert (Hrun : trazador_cubico 41 (VList zigzag4_f64)
                 = Returned (_, _, _, _)) by (vm_compute; reflexivity).
  destruct (segment_interpolates_left_knot 41 VList zigzag4_f64 _ _ _ _
              (or_introl eq_refl) Hrun 1 ltac:(simpl; lia)) as (Hd & Hval).
  split; [exact Hd |].
  apply Hval; reflexivity.
Defined.

(** C6 (as stated) fails: for four points with increasing abscissas whose
    ordinates are so large that their differences overflow, the call
    returns coefficients that are infinite or not numbers, and the cubic of
    the first segment at its left knot is not a number: it is not [y_0]. *)
Lemma left_knot_value_not_a_number :
  exists a b c d,
    trazador_cubico 2 (VList F64Inputs.huge4) = Returned (a, b, c, d)
    /\ increasing (xs F64Inputs.huge4) = true
    /\ 0 < length a
    /\ PrimFloat.is_nan
         (eval_segment F64Inputs.huge4 a b c d 0 (at_ (xs F64Inputs.huge4) 0)) = true
    /\ PrimFloat.eqb
         (eval_segment F64Inputs.huge4 a b c d 0 (at_ (xs F64Inputs.huge4) 0))
         (at_ (ys F64Inputs.huge4) 0) = false.
Proof.
  do 4 eexists. split; [vm_compute; reflexivity |].
  repeat split; vm_compute; try reflexivity. lia.
Qed.

(** [[0,0],[1,0],[2,0],[4,1e8]] *)
Definition steep4 : list (point float) :=
  floats [(0, 0); (1, 0); (2, 0); (4, 100000000)]%Q.

(** C7 (as stated) fails: for these four points with increasing abscissas
    the estimate of the solver stops changing after 69 sweeps, with a
    residual still above [tol]: the call never returns. *)
Lemma valid_four_points_never_return :
  length steep4 = 4
  /\ increasing (xs steep4) = true
  /\ forall fuel, trazador_cubico fuel (VList steep4) = Running.
Proof.
  split; [reflexivity |]. split; [reflexivity |]. intros fuel.
  rewrite (trazador_cubico_runs_solver fuel VList steep4 (or_introl eq_refl))
    by (simpl; lia).
  rewrite (sor_stalls _ _ _ _ 69); [reflexivity | |].
  - assert (Hall : forallb
                     (fun j => above (system_matrix (knot_spacing steep4))
                                     (system_vector (knot_spacing steep4) (delta_y steep4))
                                     tol_default
                                     (sweeps (system_matrix (knot_spacing steep4))
                                             (system_vector (knot_spacing steep4)
                                                            (delta_y steep4))
                                             omega_default j
                                             (replicate (length steep4 - 2) zero)))
                     (seq 0 70) = true) by (vm_compute; reflexivity).
    rewrite forallb_forall in Hall. intros j Hj. apply Hall.
    rewrite in_seq. lia.
  - vm_compute. reflexivity.
Qed.

Lemma trazador_cubico_validation_witness :
  (trazador_cubico 0 (VList [(zero, zero)])
     = Raised (ValueError "The length of 'points' must be greater than 1")
   /\ trazador_cubico 0 (VTuple [(zero, zero)])
     = Raised (ValueError "The length of 'points' must be greater than 1"))
  /\ exists k cf,
       trazador_cubico 41 (VList zigzag4_f64) = Returned cf
       /\ k < 41
       /\ cf = build_coefficients zigzag4_f64
                 (assemble (sweeps (system_matrix (knot_spacing zigzag4_f64))
                                   (system_vector (knot_spacing zigzag4_f64)
                                                  (delta_y zigzag4_f64))
                                   omega_default k (replicate 2 zero))).
Proof.
  split.
  - apply (proj1 (trazador_cubico_validation 0 [(zero, zero)])). simpl. lia.
  - assert (Hrun : { cf | trazador_cubico 41 (VList zigzag4_f64) = Returned cf }).
    { eexists. vm_compute. reflexivity. }
    destruct Hrun as (cf & Hrun).
    destruct (proj2 (proj2 (trazador_cubico_validation 41 zigzag4_f64)) eq_refl VList
                    (or_introl eq_refl)) as (_ & Hiff).
    destruct (proj1 (Hiff cf) Hrun) as (k & Hk & _ & _ & Hcf).
    exists k, cf. split; [exact Hrun |]. split; [exact Hk | exact Hcf].
Defined.


(** *** The test that ends the loop *)

Lemma SFcompare_antisym (x y : spec_float) (c : comparison) :
  SFcompare x y = Some c -> SFcompare y x = Some (CompOpp c).
Proof.
  destruct x as [sx | sx | | sx mx ex], y as [sy | sy | | sy my ey];
    simpl; try discriminate; intros [= <-];
    try (destruct sx; reflexivity); try (destruct sy; reflexivity).
  - destruct sx, sy; reflexivity.
  - f_equal. destruct sx, sy; try reflexivity.
    + rewrite (Z.compare_antisym ex ey).
      destruct (ex ?= ey)%Z; simpl; try reflexivity.
      pose proof (Pos.compare_cont_antisym mx my Eq) as Ha.
      change (CompOpp Eq) with Eq in Ha. rewrite <- Ha.
      destruct (Pos.compare_cont Eq mx my); reflexivity.
    + rewrite (Z.compare_antisym ex ey).
      destruct (ex ?= ey)%Z; simpl; try reflexivity.
      pose proof (Pos.compare_cont_antisym mx my Eq) as Ha.
      change (CompOpp Eq) with Eq in Ha. rewrite <- Ha. reflexivity.
Qed.

Lemma is_nan_of_sf (x : float) : sf x = S754_nan -> PrimFloat.is_nan x = true.
Proof. unfold PrimFloat.is_nan. rewrite eqb_spec. intros ->. reflexivity. Qed.

(** [t < r] is false when [r <= t], and when [r] or [t] is [nan] *)
Lemma ltb_false_cases (t r : float) :
  PrimFloat.ltb t r = false ->
  PrimFloat.leb r t = true \/ PrimFloat.is_nan r = true \/ PrimFloat.is_nan t = true.
Proof.
  rewrite ltb_spec, leb_spec. unfold SFltb, SFleb.
  destruct (SFcompare (sf t) (sf r)) as [c |] eqn:Hc.
  - rewrite (SFcompare_antisym _ _ c Hc). destruct c; [| discriminate |];
      intros _; left; reflexivity.
  - intros _. right.
    destruct (sf t) as [st | st | | st mt et] eqn:Et;
      destruct (sf r) as [sr | sr | | sr mr er] eqn:Er;
      try discriminate;
      try (left; apply is_nan_of_sf; exact Er);
      try (right; apply is_nan_of_sf; exact Et).
Qed.

(** When [relajacion] returns, the norm of the residual of the array it
    returns is at most [tol], or is [nan], or [tol] is [nan]: the loop
    [while residual > tol] also ends on a residual that is not a number. *)
Theorem relajacion_exit_test fuel (A : list (list float)) (b : list float) (x0 : nat)
        (omega tol : float) (st : list (list float)) (x : nat)
        (st' : list (list float)) :
  relajacion fuel A b x0 omega tol st = Some (x, st') ->
  PrimFloat.leb (float_norm (residual_vec A b (read st' x))) tol = true
  \/ PrimFloat.is_nan (float_norm (residual_vec A b (read st' x))) = true
  \/ PrimFloat.is_nan tol = true.
Proof.
  intros Hret.
  pose proof (relajacion_refine fuel A b x0 omega tol st) as Href.
  rewrite Hret in Href. destruct Href as (_ & Hsor & _).
  apply sor_returns_iff in Hsor. destruct Hsor as (k & _ & _ & Hlast & _).
  apply ltb_false_cases. exact Hlast.
Qed.

(** [relajacion(np.array([[0.]]), np.array([1.]), np.array([0.]), tol=-1e-8)]
    returns [[inf]] after one sweep: the residual of [[inf]] is [nan]. *)
Lemma relajacion_exit_test_witness :
  exists x st',
    relajacion 2 [[zero]] [one] 0 omega_default (lit (-1 # 100000000)%Q) [[zero]]
      = Some (x, st')
    /\ read st' x = [PrimFloat.infinity]
    /\ PrimFloat.is_nan (float_norm (residual_vec [[zero]] [one] (read st' x))) = true
    /\ (PrimFloat.leb (float_norm (residual_vec [[zero]] [one] (read st' x)))
                      (lit (-1 # 100000000)%Q) = true
        \/ PrimFloat.is_nan (float_norm (residual_vec [[zero]] [one] (read st' x))) = true
        \/ PrimFloat.is_nan (lit (-1 # 100000000)%Q) = true).
Proof.
  assert (Hrun : { r | relajacion 2 [[zero]] [one] 0 omega_default
                         (lit (-1 # 100000000)%Q) [[zero]] = Some r }).
  { eexists. vm_compute. reflexivity. }
  destruct Hrun as ([x st'] & Hrun).
  exists x, st'. split; [exact Hrun |].
  assert (Hval : Some (x, st') = Some (1, [[zero]; [PrimFloat.infinity]])).
  { rewrite <- Hrun. vm_compute. reflexivity. }
  injection Hval as -> ->.
  split; [reflexivity |]. split; [vm_compute; reflexivity |].
  exact (relajacion_exit_test 2 [[zero]] [one] 0 omega_default
           (lit (-1 # 100000000)%Q) [[zero]] 1 _ Hrun).
Defined.

(** *** The run of the main block *)

(** the points of the program's [__main__] *)
Definition main_points : list (point float) :=
  floats
    [(-5, 0); (-4.5, 0.0707); (-4, 0); (-3.5, -0.0909);
     (-3, 0); (-2.5, 0.1273); (-2, 0); (-1.5, -0.2122);
     (-1, 0); (-0.5, 0.6366); (0, 1); (0.5, 0.6366);
     (1, 0); (1.5, 0.2122); (2, 0); (2.5, 0.1273);
     (3, 0); (3.5, 0.0909); (4, 0); (4.5, 0.0707);
     (5, 0)]%Q.

(** The call of the main block returns, within 100 tests of the residual:
    19 cubics for the 20 segments of the 21 points, with finite
    coefficients, each cubic taking the value [y_i] at its left knot. *)
Lemma main_block_returns :
  exists a b c d,
    trazador_cubico 100 (VList main_points) = Returned (a, b, c, d)
    /\ length main_points = 21
    /\ length a = 19
    /\ forallb PrimFloat.is_finite (a ++ b ++ c ++ d) = true
    /\ forallb
         (fun i =>
            PrimFloat.eqb
              (eval_segment main_points a b c d i (at_ (xs main_points) i))
              (at_ (ys main_points) i))
         (seq 0 19) = true.
Proof.
  do 4 eexists. split; [vm_compute; reflexivity |].
  repeat split; vm_compute; reflexivity.
Qed.

(** *** The residual behind the returned coefficients *)

(** The coefficients [trazador_cubico] returns are built from [n - 2]
    interior second derivatives whose residual in the tridiagonal system
    has a norm that is at most [1e-8], or is [nan]. *)
Theorem returned_sigmas_pass_test fuel (container : list (point float) -> py_value float)
        (points : list (point float)) cf :
  list_or_tuple container ->
  trazador_cubico fuel (container points) = Returned cf ->
  exists x,
    cf = build_coefficients points (assemble x)
    /\ length x = length points - 2
    /\ (PrimFloat.leb
          (float_norm (residual_vec (system_matrix (knot_spacing points))
                                    (system_vector (knot_spacing points) (delta_y points))
                                    x))
          tol_default = true
        \/ PrimFloat.is_nan
             (float_norm (residual_vec (system_matrix (knot_spacing points))
                                       (system_vector (knot_spacing points)
                                                      (delta_y points))
                                       x)) = true).
Proof.
  intros Hc Hret.
  destruct (trazador_cubico_returned fuel _ _ Hret) as (pts & sigma & Hv & Hn & Hs & Hcf).
  assert (Hpts : pts = points).
  { destruct Hc as [-> | ->], Hv as [Hv | Hv]; congruence. }
  subst pts. rewrite solve_sigmas_sor in Hs.
  destruct (sor fuel _ _ _ _ _) as [x |] eqn:Hsor; [| discriminate].
  injection Hs as <-. exists x. split; [exact Hcf |].
  pose proof (sor_length _ _ _ _ _ _ _ Hsor) as Hlen.
  rewrite length_replicate, length_system_vector, length_knot_spacing in Hlen.
  split; [lia |].
  apply sor_returns_iff in Hsor. destruct Hsor as (_ & _ & _ & Hlast & _).
  destruct (ltb_false_cases _ _ Hlast) as [Hle | [Hnan | Htol]].
  - left. exact Hle.
  - right. exact Hnan.
  - discriminate Htol.
Qed.

Lemma returned_sigmas_pass_test_witness :
  exists cf x,
    trazador_cubico 41 (VList zigzag4_f64) = Returned cf
    /\ cf = build_coefficients zigzag4_f64 (assemble x)
    /\ length x = length zigzag4_f64 - 2
    /\ (PrimFloat.leb
          (float_norm (residual_vec (system_matrix (knot_spacing zigzag4_f64))
                                    (system_vector (knot_spacing zigzag4_f64)
                                                   (delta_y zigzag4_f64))
                                    x))
          tol_default = true
        \/ PrimFloat.is_nan
             (float_norm (residual_vec (system_matrix (knot_spacing zigzag4_f64))
                                       (system_vector (knot_spacing zigzag4_f64)
                                                      (delta_y zigzag4_f64))
                                       x)) = true).
Proof.
  assert (Hrun : { cf | trazador_cubico 41 (VList zigzag4_f64) = Returned cf }).
  { eexists. vm_compute. reflexivity. }
  destruct Hrun as (cf & Hrun).
  destruct (returned_sigmas_pass_test 41 VList zigzag4_f64 cf (or_introl eq_refl) Hrun)
    as (x & Hx).
  exists cf, x. split; [exact Hrun | exact Hx].
Defined.

End Float64.
